(** * wgslPreprocessor: include discovery and emission

    A shallow embedding of [wgslPreprocessor.cpp]: the recursive include
    walker [findIncludes], the ordering helper
    [convertActiveIncludesToVector] and the emission pass of [main].

    The file system, the diagnostic stream and the output stream are made
    explicit: the file system is a record of functions, the walker threads
    a state holding the depth map and a trace of what it did. The recursion
    of [findIncludes] is bounded by a fuel argument that counts nested
    calls; [None] means the fuel ran out. *)

From Stdlib Require Import String Ascii NArith List Permutation Sorted.
From stdpp Require Import gmap strings list fin_maps sorting.

Local Open Scope string_scope.

(** ** Strings as [std::string] uses them *)

Abbreviation path := string (only parsing).

(** The double quote character. *)
Definition dquote : ascii := ascii_of_nat 34.

(** The line feed character on which [std::getline] splits. *)
Definition newline : ascii := ascii_of_nat 10.

(** [include_directive_prefix]: the word #include, a space and a double
    quote. *)
Definition include_directive_prefix : string :=
  "#include " ++ String dquote EmptyString.

(** [line.rfind(prefix, 0) == 0]: the line starts with the prefix. *)
Definition starts_with (pre s : string) : bool := String.prefix pre s.

(** [s.find(c, pos)]: index of the first [c] at or after [pos]. *)
Fixpoint find_char (c : ascii) (pos : nat) (s : string) : option nat :=
  match s with
  | EmptyString => None
  | String a s' =>
      match pos with
      | O => if Ascii.eqb a c then Some O else option_map S (find_char c O s')
      | S pos' => option_map S (find_char c pos' s')
      end
  end.

(** [s.find(needle)]: index of the first occurrence of [needle]. *)
Fixpoint str_find (needle s : string) : option nat :=
  if String.prefix needle s then Some O
  else match s with
       | EmptyString => None
       | String _ s' => option_map S (str_find needle s')
       end.

(** The successive results of [std::getline] on a stream holding [s]: the
    pieces between line feeds; a final piece is a line only when it is
    not empty. *)
Fixpoint getlines (s : string) : list string :=
  match s with
  | EmptyString => []
  | String c rest =>
      if Ascii.eqb c newline then EmptyString :: getlines rest
      else match getlines rest with
           | [] => [String c EmptyString]
           | l :: ls => String c l :: ls
           end
  end.

(** [uint32_t] increment, with its wrap-around. *)
Definition uint32_succ (d : N) : N := ((d + 1) mod 4294967296)%N.

(** ** The environment *)

(** What the program asks of [std::filesystem] and of the streams.
    [read_file p] is the content of [p] when an [std::ifstream] on it
    opens; [canonical p] is [None] when [std::filesystem::canonical]
    throws; [path_join] is [operator/]. The record describes a run
    during which the files read keep their content: one in which the
    output, once opened (and truncated) by [main], is none of the files
    the emission pass reads back. *)
Record filesystem := {
  read_file : path → option string;
  canonical : path → option path;
  path_join : path → string → path;
  parent_path : path → path;
  absolute : string → path;
  open_write : string → bool
}.

(** Messages written to [std::cerr]. *)
Inductive diagnostic :=
| CanonicalIncluded (p : path)
| CouldNotOpen (p : path)
| MalformedInclude (p : path) (line : string)
| Usage (prog : string)
| CanonicalInitial (arg : string)
| FindIncludesFailed
| CouldNotOpenOutput (p : string)
| CouldNotOpenInput (p : path).

(** What the walker does, newest first. [Call] is a ghost event marking
    the entry of [findIncludes]; [OpenRead] is an [std::ifstream] that
    opened. *)
Inductive event :=
| Call (filePath : path) (depth : N)
| OpenRead (filePath : path)
| Cerr (msg : diagnostic).

Record walk_state := {
  activeIncludes : gmap string N;
  trace : list event
}.

Definition log (e : event) (st : walk_state) : walk_state :=
  {| activeIncludes := activeIncludes st; trace := e :: trace st |}.

(** [activeIncludes.insert_or_assign(filePath, depth)] and
    [activeIncludes[filePath] = depth]. *)
Definition assign (filePath : path) (depth : N) (st : walk_state) : walk_state :=
  {| activeIncludes := <[filePath := depth]> (activeIncludes st);
     trace := trace st |}.

(** [activeIncludes.erase(filePath)]. *)
Definition erase (filePath : path) (st : walk_state) : walk_state :=
  {| activeIncludes := delete filePath (activeIncludes st);
     trace := trace st |}.

Definition initial_state : walk_state :=
  {| activeIncludes := ∅; trace := [] |}.

Section Walker.

Context (fs : filesystem).

(** [removeDot]: the canonical path, or the path unchanged and a message
    when canonicalization throws. *)
Definition removeDot (p : path) (st : walk_state) : path * walk_state :=
  match canonical fs p with
  | Some q => (q, st)
  | None => (p, log (Cerr (CanonicalIncluded p)) st)
  end.

Definition visitor : Type :=
  path → path → walk_state → N → option (bool * walk_state).

(** [size_t start_quote_pos = include_directive_prefix.length();] *)
Definition start_quote_pos : nat := String.length include_directive_prefix.

(** The [while (std::getline(inputFile, line) && nothingFoundCount < 5)]
    loop of [findIncludes], over the lines still to be read; [visit] is
    the recursive call. *)
Fixpoint scan_lines (visit : visitor) (filePath currentBaseDir : path)
    (depth : N) (lines : list string) (nothingFoundCount : N)
    (st : walk_state) : option (bool * walk_state) :=
  match lines with
  | [] => Some (true, st)
  | line :: rest =>
      if negb (nothingFoundCount <? 5)%N then Some (true, st)
      else if starts_with include_directive_prefix line then
        match find_char dquote start_quote_pos line with
        | Some end_quote_pos =>
            let includedRelativeFileName :=
              substring start_quote_pos (end_quote_pos - start_quote_pos) line in
            let '(absoluteIncludedPath, st1) :=
              removeDot (path_join fs currentBaseDir includedRelativeFileName) st in
            let nextBaseDir := parent_path fs absoluteIncludedPath in
            match visit absoluteIncludedPath nextBaseDir st1 (uint32_succ depth) with
            | None => None
            | Some (false, st2) => Some (false, erase filePath st2)
            | Some (true, st2) =>
                scan_lines visit filePath currentBaseDir depth rest 0%N st2
            end
        | None =>
            scan_lines visit filePath currentBaseDir depth rest nothingFoundCount
              (log (Cerr (MalformedInclude filePath line)) st)
        end
      else
        scan_lines visit filePath currentBaseDir depth rest
          (nothingFoundCount + 1)%N st
  end.

(** [findIncludes] from the construction of the [std::ifstream] on. *)
Definition open_and_scan (visit : visitor) (filePath currentBaseDir : path)
    (depth : N) (st : walk_state) : option (bool * walk_state) :=
  match read_file fs filePath with
  | None => Some (false, erase filePath (log (Cerr (CouldNotOpen filePath)) st))
  | Some content =>
      scan_lines visit filePath currentBaseDir depth (getlines content) 0%N
        (log (OpenRead filePath) st)
  end.

(** The [try]/[catch] block at the head of [findIncludes]; the boolean
    tells whether the function returns [true] from inside it.
    [activeIncludes.at] throws when the key is absent, and the handler
    records the depth. *)
Definition revisit_check (filePath : path) (depth : N) (st : walk_state)
    : bool * walk_state :=
  match activeIncludes st !! filePath with
  | Some d_old =>
      if (d_old <? depth)%N then (true, assign filePath depth st)
      else (false, st)
  | None => (false, assign filePath depth st)
  end.

(** [findIncludes(filePath, currentBaseDir, activeIncludes, depth)]; the
    state stands where the map reference does. *)
Fixpoint findIncludes (fuel : nat) (filePath currentBaseDir : path)
    (st : walk_state) (depth : N) : option (bool * walk_state) :=
  match fuel with
  | O => None
  | S fuel' =>
      let '(returns, st1) :=
        revisit_check filePath depth (log (Call filePath depth) st) in
      if returns then Some (true, st1)
      else open_and_scan (findIncludes fuel') filePath currentBaseDir depth st1
  end.

End Walker.

(** ** Emission order *)

(** The comparator handed to [std::sort]: [a.first > b.first]. *)
Definition depth_greater (a b : N * string) : bool := (b.1 <? a.1)%N.

(** What no later element may be of an earlier one after sorting. *)
Definition not_before (a b : N * string) : Prop := depth_greater b a = false.

(** [std::sort] is specified by its contract only: the result is a
    rearrangement of the input in which no element compares before one
    that precedes it. The order of equivalent elements is not specified,
    so the sort is a parameter satisfying the contract. *)
Record std_sort := {
  sort_fn : list (N * string) → list (N * string);
  sort_perm : ∀ l, sort_fn l ≡ₚ l;
  sort_sorted : ∀ l, StronglySorted not_before (sort_fn l)
}.

(** [convertActiveIncludesToVector]: value/key pairs of the map, sorted,
    keys extracted. [std::map] hands its entries over in key order and
    [map_to_list] in an order of its own; the contract of the sort holds
    for either, and nothing more is known of the result. *)
Definition convertActiveIncludesToVector (srt : std_sort)
    (map : gmap string N) : list path :=
  let valueKeyPairs := (λ pair : string * N, (pair.2, pair.1)) <$> map_to_list map in
  let sorted := sort_fn srt valueKeyPairs in
  (λ pair : N * string, pair.2) <$> sorted.

(** ** The emission pass and [main] *)

(** [line.find("#include") == std::string::npos]. *)
Definition lacks_include (line : string) : bool :=
  match str_find "#include" line with
  | None => true
  | Some _ => false
  end.

(** [std::endl]. *)
Definition endl : string := String newline EmptyString.

(** The inner [while (std::getline(inputFile, line))] loop of [main]. *)
Fixpoint emit_lines (lines : list string) (out : string) : string :=
  match lines with
  | [] => out
  | line :: rest =>
      if lacks_include line then emit_lines rest (out ++ line ++ endl)
      else emit_lines rest out
  end.

Record main_result := {
  exit_code : Z;
  output : string;
  destination : option string;
  final_state : walk_state
}.

Section Main.

Context (fs : filesystem) (srt : std_sort).

(** The [for (const auto& filePath : includes)] loop of [main]. *)
Fixpoint emit_files (includes : list path) (out : string) (st : walk_state)
    : string * walk_state :=
  match includes with
  | [] => (out, st)
  | filePath :: rest =>
      match read_file fs filePath with
      | None => emit_files rest out (log (Cerr (CouldNotOpenInput filePath)) st)
      | Some content =>
          emit_files rest (emit_lines (getlines content) out)
            (log (OpenRead filePath) st)
      end
  end.

(** [main]; [argv] holds the [argc] arguments. [None] only when the fuel
    of the walk ran out. With three arguments the output file is opened,
    and so truncated, between the walk and the emission pass; the files
    of the emission pass are read through [read_file] as the walk read
    them, which is the program when the output file is none of them. *)
Definition main (fuel : nat) (argv : list string) : option main_result :=
  let argc := length argv in
  if (argc <? 2)%nat || (3 <? argc)%nat then
    Some {| exit_code := 1; output := ""; destination := None;
            final_state := log (Cerr (Usage (nth 0 argv ""))) initial_state |}
  else
    let executablePath := absolute fs (nth 0 argv "") in
    let programBaseDir := parent_path fs executablePath in
    let inputFilePathArgument := nth 1 argv "" in
    match canonical fs (path_join fs programBaseDir inputFilePathArgument) with
    | None =>
        Some {| exit_code := 1; output := ""; destination := None;
                final_state :=
                  log (Cerr (CanonicalInitial inputFilePathArgument)) initial_state |}
    | Some absoluteInitialFilePath =>
        let initialFileProcessingBaseDir := parent_path fs absoluteInitialFilePath in
        match findIncludes fs fuel absoluteInitialFilePath
                initialFileProcessingBaseDir initial_state 0%N with
        | None => None
        | Some (ok, st) =>
            let st1 := if ok then st else log (Cerr FindIncludesFailed) st in
            let outputFilePathStr := nth 2 argv "" in
            if (argc =? 3)%nat && negb (open_write fs outputFilePathStr) then
              Some {| exit_code := 1; output := ""; destination := None;
                      final_state :=
                        log (Cerr (CouldNotOpenOutput outputFilePathStr)) st1 |}
            else
              let includes := convertActiveIncludesToVector srt (activeIncludes st1) in
              let '(out, st2) := emit_files includes "" st1 in
              Some {| exit_code := 0; output := out;
                      destination :=
                        if (argc =? 3)%nat then Some outputFilePathStr else None;
                      final_state := st2 |}
        end
    end.

End Main.

(** ** A sort that meets the contract *)

Definition depth_ge (a b : N * string) : Prop := (b.1 ≤ a.1)%N.

#[local] Instance depth_ge_dec a b : Decision (depth_ge a b).
Proof. unfold depth_ge. apply _. Defined.

#[local] Instance depth_ge_total : Total depth_ge.
Proof. intros a b. unfold depth_ge. lia. Qed.

#[local] Instance depth_ge_trans : Transitive depth_ge.
Proof. intros a b c. unfold depth_ge. lia. Qed.

Definition merge_std_sort : std_sort.
Proof.
  refine {| sort_fn := merge_sort depth_ge |}.
  - apply merge_sort_Permutation.
  - intros l. pose proof (StronglySorted_merge_sort depth_ge l) as Hs.
    induction Hs as [|x xs Hs IH Hall]; constructor; [assumption|].
    eapply Forall_impl; [exact Hall|].
    intros y Hy. unfold depth_ge in Hy.
    unfold not_before, depth_greater. by apply N.ltb_ge.
Defined.

(** ** Concrete environments *)

(** [#include], a space, and the name between double quotes. *)
Definition directive (name : string) : string :=
  include_directive_prefix ++ name ++ String dquote EmptyString.

(** A directive whose closing quote is missing. *)
Definition malformed_directive (name : string) : string :=
  include_directive_prefix ++ name.

(** File content whose lines are [ls], each ended by a line feed. *)
Fixpoint unlines (ls : list string) : string :=
  match ls with
  | [] => EmptyString
  | l :: rest => l ++ endl ++ unlines rest
  end.

Fixpoint assoc (files : list (string * string)) (p : string) : option string :=
  match files with
  | [] => None
  | (q, c) :: rest => if String.eqb q p then Some c else assoc rest p
  end.

(** A single directory holding [files]; paths are bare file names. *)
Definition flat_fs (files : list (string * string)) : filesystem :=
  {| read_file := assoc files;
     canonical := λ p, match assoc files p with Some _ => Some p | None => None end;
     path_join := λ _ name, name;
     parent_path := λ _, EmptyString;
     absolute := λ p, p;
     open_write := λ _, true |}.

(** The files of the examples. *)
Definition plain_lines : list string :=
  ["// one"; "// two"; "// three"; "// four"; "// five"; "// six"].

(** [a.wgsl] includes itself on two lines. *)
Definition self_twice_fs : filesystem :=
  flat_fs [("a.wgsl",
            unlines [directive "a.wgsl"; directive "a.wgsl"; "fn a() {}"])].

(** [a.wgsl] and [b.wgsl] each include [b.wgsl] and then [a.wgsl]; no
    file names the same file twice. *)
Definition mutual_fs : filesystem :=
  flat_fs [("a.wgsl",
            unlines [directive "b.wgsl"; directive "a.wgsl"; "fn a() {}"]);
           ("b.wgsl",
            unlines [directive "b.wgsl"; directive "a.wgsl"; "fn b() {}"])].

(** [a.wgsl] includes [b.wgsl], which has no include. *)
Definition chain_fs : filesystem :=
  flat_fs [("a.wgsl", unlines [directive "b.wgsl"; "fn a() {}"]);
           ("b.wgsl", unlines ["fn b() {}"])].

(** [a.wgsl] has six lines of text before its include of [b.wgsl]. *)
Definition late_include_fs : filesystem :=
  flat_fs [("a.wgsl", unlines (plain_lines ++ [directive "b.wgsl"; "fn a() {}"]));
           ("b.wgsl", unlines ["fn b() {}"])].

(** [a.wgsl] includes [b.wgsl] and then [missing.wgsl], which does not
    exist. *)
Definition missing_fs : filesystem :=
  flat_fs [("a.wgsl", unlines [directive "b.wgsl"; directive "missing.wgsl"; "fn a() {}"]);
           ("b.wgsl", unlines ["fn b() {}"])].

(** [a.wgsl] includes [b.wgsl] and [c.wgsl]; [c.wgsl] includes [b.wgsl]. *)
Definition diamond_fs : filesystem :=
  flat_fs [("a.wgsl", unlines [directive "b.wgsl"; directive "c.wgsl"; "fn a() {}"]);
           ("b.wgsl", unlines ["fn b() {}"]);
           ("c.wgsl", unlines [directive "b.wgsl"; "fn c() {}"])].

(** A state in which [filePath] is recorded at [depth] and nothing has
    happened yet. *)
Definition recorded_at (filePath : path) (depth : N) : walk_state :=
  {| activeIncludes := {[filePath := depth]}; trace := [] |}.

(** ** Notions used by the statements *)

(** A line that begins with the directive prefix and has no closing
    quote. *)
Definition is_malformed (line : string) : Prop :=
  starts_with include_directive_prefix line = true ∧
  find_char dquote start_quote_pos line = None.

(** A line that does not begin with the directive prefix. *)
Definition is_plain (line : string) : Prop :=
  starts_with include_directive_prefix line = false.

(** The warnings of a run of malformed lines of [filePath]. *)
Definition warn_all (filePath : path) (lines : list string) (st : walk_state)
    : walk_state :=
  foldl (λ s line, log (Cerr (MalformedInclude filePath line)) s) st lines.

(** The names the scan loop extracts from [lines], with the same tests
    and the same counter as [scan_lines]. *)
Fixpoint window_includes (lines : list string) (nothingFoundCount : N)
    : list string :=
  match lines with
  | [] => []
  | line :: rest =>
      if negb (nothingFoundCount <? 5)%N then []
      else if starts_with include_directive_prefix line then
        match find_char dquote start_quote_pos line with
        | Some end_quote_pos =>
            substring start_quote_pos (end_quote_pos - start_quote_pos) line
              :: window_includes rest 0%N
        | None => window_includes rest nothingFoundCount
        end
      else window_includes rest (nothingFoundCount + 1)%N
  end.

(** The path [removeDot] leaves for [name] included from [baseDir]. *)
Definition resolve (fs : filesystem) (baseDir : path) (name : string) : path :=
  (removeDot fs (path_join fs baseDir name) initial_state).1.

(** The files a scan of [f] visits when [f] is scanned with its own
    parent directory as base, as every call that starts in [main] is. *)
Definition includes_of (fs : filesystem) (f : path) : list path :=
  match read_file fs f with
  | None => []
  | Some content =>
      resolve fs (parent_path fs f) <$> window_includes (getlines content) 0%N
  end.

Inductive reachable (fs : filesystem) (root : path) : path → Prop :=
| reachable_root : reachable fs root root
| reachable_step f g :
    reachable fs root f → g ∈ includes_of fs f → reachable fs root g.

(** [m] is the largest depth of a call on [f] in the trace. *)
Definition largest_call_depth (tr : list event) (f : path) (m : N) : Prop :=
  Call f m ∈ tr ∧ ∀ d, Call f d ∈ tr → (d ≤ m)%N.

(** Every entry is the largest depth its file was called at, and a file
    without an entry was never called. *)
Definition depth_invariant (st : walk_state) : Prop :=
  ∀ f, match activeIncludes st !! f with
       | Some m => largest_call_depth (trace st) f m
       | None => ∀ d, Call f d ∉ trace st
       end.

(** No entry of [st] is lost or lowered in [st']. *)
Definition never_decreases (st st' : walk_state) : Prop :=
  ∀ f d, activeIncludes st !! f = Some d →
         ∃ d', activeIncludes st' !! f = Some d' ∧ (d ≤ d')%N.

(** The text the emission pass writes for one file. *)
Definition file_chunk (fs : filesystem) (f : path) : string :=
  match read_file fs f with
  | None => EmptyString
  | Some content => emit_lines (getlines content) EmptyString
  end.

(** The text the emission pass writes for the files of [includes]. *)
Definition chunks (fs : filesystem) (includes : list string) : string :=
  foldr (λ f acc, file_chunk fs f ++ acc) EmptyString includes.

(** Every recorded file outside [pending] has all the files it includes
    recorded. *)
Definition closed_except (fs : filesystem) (pending : gset string)
    (m : gmap string N) : Prop :=
  ∀ f, is_Some (m !! f) → f ∉ pending →
       ∀ g, g ∈ includes_of fs f → is_Some (m !! g).

(** Every recorded file stays recorded. *)
Definition grows (m m' : gmap string N) : Prop :=
  ∀ f, is_Some (m !! f) → is_Some (m' !! f).

(** A rank for [chain_fs]: [a.wgsl] above everything else. *)
Definition chain_rank (f : string) : nat :=
  if String.eqb f "a.wgsl" then 1 else 0.

(** [needle] occurs somewhere in [s]. *)
Definition occurs_in (needle s : string) : Prop :=
  ∃ before after, s = before ++ needle ++ after.

(** Whether [c] occurs in [s]. *)
Fixpoint has_char (c : ascii) (s : string) : bool :=
  match s with
  | EmptyString => false
  | String a s' => Ascii.eqb a c || has_char c s'
  end.

(** Whether [s] is empty or ends with a line feed. *)
Fixpoint newline_terminated (s : string) : bool :=
  match s with
  | EmptyString => true
  | String c rest =>
      match rest with
      | EmptyString => Ascii.eqb c newline
      | String _ _ => newline_terminated rest
      end
  end.

(** The lines of [f] that the emission pass writes. *)
Definition kept_lines (fs : filesystem) (f : path) : list string :=
  match read_file fs f with
  | None => []
  | Some content => List.filter lacks_include (getlines content)
  end.

(** What the emission pass logs for [f]. *)
Definition emission_event (fs : filesystem) (f : path) : event :=
  match read_file fs f with
  | None => Cerr (CouldNotOpenInput f)
  | Some _ => OpenRead f
  end.

(** The number of files the walk reported as impossible to open. *)
Fixpoint open_errors (tr : list event) : nat :=
  match tr with
  | [] => 0
  | Cerr (CouldNotOpen _) :: rest => S (open_errors rest)
  | _ :: rest => open_errors rest
  end.

(** The argument [main] turns into the root path. *)
Definition root_argument (fs : filesystem) (argv : list string) : path :=
  path_join fs (parent_path fs (absolute fs (nth 0 argv EmptyString)))
    (nth 1 argv EmptyString).

(** Every recorded file has been opened by the walk. *)
Definition recorded_were_opened (st : walk_state) : Prop :=
  ∀ f, is_Some (activeIncludes st !! f) → OpenRead f ∈ trace st.

(** A directory whose files have canonical paths and cannot be read. *)
Definition unreadable_fs : filesystem :=
  {| read_file := λ _, None;
     canonical := λ p, Some p;
     path_join := λ _ name, name;
     parent_path := λ _, EmptyString;
     absolute := λ p, p;
     open_write := λ _, true |}.

(** [a.wgsl] includes [b.wgsl], which includes [a.wgsl]. *)
Definition cycle_fs : filesystem :=
  flat_fs [("a.wgsl", unlines [directive "b.wgsl"; "fn a() {}"]);
           ("b.wgsl", unlines [directive "a.wgsl"; "fn b() {}"])].

(** The files of [files] without an entry in [m]. *)
Definition unrecorded (files : list string) (m : gmap string N) : list string :=
  List.filter (λ f, match m !! f with Some _ => false | None => true end) files.

(** Every call of the trace is on [root] at depth 0 or on another file
    at a depth of at least 1. *)
Definition root_on_top (root : string) (tr : list event) : Prop :=
  ∀ g x, Call g x ∈ tr → (g = root ∧ x = 0%N) ∨ (g ≠ root ∧ (1 ≤ x)%N).

(** The files of [chain_fs] where no output file can be opened. *)
Definition no_output_fs : filesystem :=
  {| read_file := read_file chain_fs;
     canonical := canonical chain_fs;
     path_join := path_join chain_fs;
     parent_path := parent_path chain_fs;
     absolute := absolute chain_fs;
     open_write := λ _, false |}.

(** The number of lines of [lines] that do not begin with the directive
    prefix: the lines on which the scan loop runs [nothingFoundCount++]. *)
Definition plain_count (lines : list string) : N :=
  N.of_nat
    (length (List.filter
               (λ line, negb (starts_with include_directive_prefix line))
               lines)).

(** [a.wgsl] opens with five directives that lack their closing quote,
    then includes [b.wgsl]. *)
Definition unclosed_run_fs : filesystem :=
  flat_fs [("a.wgsl",
            unlines (replicate 5 (malformed_directive "x.wgsl")
                       ++ [directive "b.wgsl"; "fn a() {}"]));
           ("b.wgsl", unlines ["fn b() {}"])].

(** * Properties *)

(** ** One iteration of the scan loop *)

Section ScanSteps.

Context (fs : filesystem) (visit : visitor).
Implicit Types (f b : string) (d count : N) (st : walk_state).

Lemma scan_lines_stop f b d lines count st :
  (5 ≤ count)%N →
  scan_lines fs visit f b d lines count st = Some (true, st).
Proof.
  intros Hc. destruct lines as [|line rest]; [reflexivity|].
  simpl. apply N.ltb_ge in Hc. by rewrite Hc.
Qed.

Lemma scan_lines_plain f b d line rest count st :
  (count < 5)%N → is_plain line →
  scan_lines fs visit f b d (line :: rest) count st
  = scan_lines fs visit f b d rest (count + 1)%N st.
Proof.
  intros Hc Hp. apply N.ltb_lt in Hc. unfold is_plain in Hp.
  simpl. by rewrite Hc, Hp.
Qed.

Lemma scan_lines_malformed f b d line rest count st :
  (count < 5)%N → is_malformed line →
  scan_lines fs visit f b d (line :: rest) count st
  = scan_lines fs visit f b d rest count
      (log (Cerr (MalformedInclude f line)) st).
Proof.
  intros Hc [Hp Hq]. apply N.ltb_lt in Hc.
  simpl. by rewrite Hc, Hp, Hq.
Qed.

Lemma scan_lines_directive f b d line rest count st e :
  (count < 5)%N →
  starts_with include_directive_prefix line = true →
  find_char dquote start_quote_pos line = Some e →
  scan_lines fs visit f b d (line :: rest) count st
  = let name := substring start_quote_pos (e - start_quote_pos) line in
    let ps := removeDot fs (path_join fs b name) st in
    match visit ps.1 (parent_path fs ps.1) ps.2 (uint32_succ d) with
    | None => None
    | Some (false, st2) => Some (false, erase f st2)
    | Some (true, st2) => scan_lines fs visit f b d rest 0%N st2
    end.
Proof.
  intros Hc Hp Hq. apply N.ltb_lt in Hc.
  simpl. rewrite Hc, Hp, Hq. simpl.
  by destruct (removeDot fs _ st).
Qed.

Lemma scan_lines_plain_run f b d pre rest count st :
  Forall is_plain pre → (5 ≤ count + N.of_nat (length pre))%N →
  scan_lines fs visit f b d (pre ++ rest) count st = Some (true, st).
Proof.
  intros Hpre. revert count.
  induction Hpre as [|line pre Hline Hpre IH]; intros count Hlen.
  - apply scan_lines_stop. simpl in Hlen. lia.
  - destruct (decide (count < 5)%N) as [Hc|Hc].
    + simpl app. rewrite scan_lines_plain by assumption.
      apply IH. simpl in Hlen. lia.
    + apply scan_lines_stop. lia.
Qed.

Lemma scan_lines_malformed_run f b d ms rest count st :
  (count < 5)%N → Forall is_malformed ms →
  scan_lines fs visit f b d (ms ++ rest) count st
  = scan_lines fs visit f b d rest count (warn_all f ms st).
Proof.
  intros Hc Hms. revert st.
  induction Hms as [|line ms Hline Hms IH]; intros st; [reflexivity|].
  simpl app. rewrite scan_lines_malformed by assumption.
  by rewrite IH.
Qed.

End ScanSteps.

Lemma resolve_removeDot fs p st :
  (removeDot fs p st).1 = (removeDot fs p initial_state).1.
Proof. unfold removeDot. by destruct (canonical fs p). Qed.

Lemma convert_singleton srt f d :
  convertActiveIncludesToVector srt {[f := d]} = [f].
Proof.
  unfold convertActiveIncludesToVector.
  rewrite map_to_list_singleton. simpl.
  pose proof (sort_perm srt [(d, f)]) as Hp.
  apply Permutation_singleton_r in Hp. by rewrite Hp.
Qed.

Lemma convert_empty srt : convertActiveIncludesToVector srt ∅ = [].
Proof.
  unfold convertActiveIncludesToVector. rewrite map_to_list_empty.
  pose proof (sort_perm srt []) as Hp. apply Permutation_nil_r in Hp.
  cbn [fmap list_fmap]. by rewrite Hp.
Qed.

Lemma findIncludes_fresh fs fuel f b st d :
  activeIncludes st !! f = None →
  findIncludes fs (S fuel) f b st d
  = open_and_scan fs (findIncludes fs fuel) f b d
      (assign f d (log (Call f d) st)).
Proof.
  intros Hf. simpl. unfold revisit_check. simpl. by rewrite Hf.
Qed.

(** ** The early stop of the scan *)

(** C10. A scanned line that begins with the directive prefix and has no
    closing quote leaves the counter of the early stop as it was: a run
    of such lines of any length, met while the counter is below 5, is
    passed over with one warning per line, and the lines after the run
    are scanned with the counter unchanged. *)
Theorem malformed_lines_keep_counter fs visit (f b : string) (d : N)
    (ms rest : list string) (count : N) (st : walk_state) :
  (count < 5)%N → Forall is_malformed ms →
  scan_lines fs visit f b d (ms ++ rest) count st
  = scan_lines fs visit f b d rest count (warn_all f ms st).
Proof. apply scan_lines_malformed_run. Qed.

Lemma malformed_lines_keep_counter_witness :
  let ms := replicate 7 (malformed_directive "x.wgsl") in
  scan_lines chain_fs (findIncludes chain_fs 2) "a.wgsl" "" 0
    (ms ++ [directive "b.wgsl"]) 4 initial_state
  = scan_lines chain_fs (findIncludes chain_fs 2) "a.wgsl" "" 0
      [directive "b.wgsl"] 4 (warn_all "a.wgsl" ms initial_state).
Proof.
  intros ms. apply malformed_lines_keep_counter.
  - reflexivity.
  - repeat constructor.
Defined.

Lemma plain_count_plain (line : string) (rest : list string) :
  is_plain line → plain_count (line :: rest) = (1 + plain_count rest)%N.
Proof.
  unfold is_plain, plain_count. intros Hp. cbn [List.filter].
  rewrite Hp. cbn [negb length]. lia.
Qed.

Lemma plain_count_malformed (line : string) (rest : list string) :
  is_malformed line → plain_count (line :: rest) = plain_count rest.
Proof.
  unfold plain_count. intros [Hp _]. cbn [List.filter]. by rewrite Hp.
Qed.

Lemma scan_lines_mixed_run fs (f b : string) d pre count st :
  Forall (λ line, is_plain line ∨ is_malformed line) pre →
  (5 ≤ count + plain_count pre)%N →
  ∃ st', (∀ visit rest,
            scan_lines fs visit f b d (pre ++ rest) count st = Some (true, st'))
         ∧ activeIncludes st' = activeIncludes st.
Proof.
  intros Hpre. revert count st.
  induction Hpre as [|line pre Hline Hpre IH]; intros count st Hlen.
  { exists st. split; [|reflexivity]. intros visit rest.
    apply scan_lines_stop. unfold plain_count in Hlen. simpl in Hlen. lia. }
  destruct (decide (count < 5)%N) as [Hc|Hc].
  2:{ exists st. split; [|reflexivity]. intros visit rest.
      apply scan_lines_stop. lia. }
  destruct Hline as [Hp|Hm].
  - rewrite plain_count_plain in Hlen by assumption.
    destruct (IH (count + 1)%N st) as (st' & Hscan & Hmap); [lia|].
    exists st'. split; [|assumption]. intros visit rest.
    simpl app. by rewrite scan_lines_plain.
  - rewrite plain_count_malformed in Hlen by assumption.
    destruct (IH count (log (Cerr (MalformedInclude f line)) st))
      as (st' & Hscan & Hmap); [assumption|].
    exists st'. split; [|assumption]. intros visit rest.
    simpl app. by rewrite scan_lines_malformed.
Qed.

(** With five directives that lack their closing quote at the top of
    [a.wgsl], five lines in a row are read without a successful match,
    and the scan goes on: the include after them is followed and
    [b.wgsl] is recorded. *)
Lemma five_unclosed_lines_do_not_stop :
  read_file unclosed_run_fs "a.wgsl"
  = Some (unlines (replicate 5 (malformed_directive "x.wgsl")
                     ++ [directive "b.wgsl"; "fn a() {}"]))
  ∧ is_malformed (malformed_directive "x.wgsl")
  ∧ ∃ st, findIncludes unclosed_run_fs 2 "a.wgsl" "" initial_state 0
          = Some (true, st)
          ∧ activeIncludes st !! "b.wgsl" = Some 1%N
          ∧ OpenRead "b.wgsl" ∈ trace st.
Proof.
  split; [reflexivity|]. split; [by split|].
  eexists. split; [vm_compute; reflexivity|].
  split; [reflexivity|]. vm_compute. apply list_elem_of_here.
Qed.

(** C5, as the code has it. The scan of a file starts with the counter at
    0 and stops once the counter has reached 5. Each line that does not
    begin with the directive prefix adds one to the counter, each
    directive whose file was visited with success sets it to 0, and a
    line that begins with the prefix and lacks the closing quote leaves
    it as it was. So the scan ends, without any visit, as soon as the
    lines without the prefix read since the last successful include
    (whatever unclosed directives lie between them) bring the counter to
    5; five such lines in a row do so whatever the counter was. A file
    that opens to six lines without the prefix is scanned without any
    visit; as the root, its walk records the root alone, and the root is
    all that is emitted. *)
Theorem early_stop_heuristic fs :
  (∀ visit (f b : string) d st content,
     read_file fs f = Some content →
     open_and_scan fs visit f b d st
     = scan_lines fs visit f b d (getlines content) 0%N
         (log (OpenRead f) st))
  ∧ (∀ visit (f b : string) d lines count st,
     (5 ≤ count)%N →
     scan_lines fs visit f b d lines count st = Some (true, st))
  ∧ (∀ visit (f b : string) d line rest count st,
     (count < 5)%N → is_plain line →
     scan_lines fs visit f b d (line :: rest) count st
     = scan_lines fs visit f b d rest (count + 1)%N st)
  ∧ (∀ visit (f b : string) d line rest count st,
     (count < 5)%N → is_malformed line →
     scan_lines fs visit f b d (line :: rest) count st
     = scan_lines fs visit f b d rest count
         (log (Cerr (MalformedInclude f line)) st))
  ∧ (∀ visit (f b : string) d line rest count st e st2,
     (count < 5)%N →
     starts_with include_directive_prefix line = true →
     find_char dquote start_quote_pos line = Some e →
     (let ps := removeDot fs
                  (path_join fs b
                     (substring start_quote_pos (e - start_quote_pos) line)) st in
      visit ps.1 (parent_path fs ps.1) ps.2 (uint32_succ d) = Some (true, st2)) →
     scan_lines fs visit f b d (line :: rest) count st
     = scan_lines fs visit f b d rest 0%N st2)
  ∧ (∀ (f b : string) d pre count st,
     Forall (λ line, is_plain line ∨ is_malformed line) pre →
     (5 ≤ count + plain_count pre)%N →
     ∃ st', (∀ visit rest,
               scan_lines fs visit f b d (pre ++ rest) count st
               = Some (true, st'))
            ∧ activeIncludes st' = activeIncludes st)
  ∧ (∀ visit (f b : string) d pre rest count st,
     Forall is_plain pre → length pre = 5 →
     scan_lines fs visit f b d (pre ++ rest) count st = Some (true, st))
  ∧ (∀ visit (f b : string) d st content pre rest,
     read_file fs f = Some content →
     getlines content = (pre ++ rest)%list →
     Forall is_plain pre → length pre = 6 →
     open_and_scan fs visit f b d st = Some (true, log (OpenRead f) st))
  ∧ (∀ srt fuel (root b : string) content pre rest,
     read_file fs root = Some content →
     getlines content = (pre ++ rest)%list →
     Forall is_plain pre → length pre = 6 →
     ∃ st', findIncludes fs (S fuel) root b initial_state 0 = Some (true, st')
            ∧ activeIncludes st' = {[root := 0%N]}
            ∧ convertActiveIncludesToVector srt (activeIncludes st') = [root]).
Proof.
  split; [|split; [|split; [|split; [|split; [|split; [|split; [|split]]]]]]].
  - intros visit f b d st content Hr. unfold open_and_scan. by rewrite Hr.
  - intros. by apply scan_lines_stop.
  - intros. by apply scan_lines_plain.
  - intros. by apply scan_lines_malformed.
  - intros visit f b d line rest count st e st2 Hc Hp Hq Hv.
    rewrite (scan_lines_directive fs visit f b d line rest count st e Hc Hp Hq).
    simpl in *. by rewrite Hv.
  - intros. by apply scan_lines_mixed_run.
  - intros visit f b d pre rest count st Hpre Hlen.
    apply scan_lines_plain_run; [assumption|]. rewrite Hlen. lia.
  - intros visit f b d st content pre rest Hr Hl Hpre Hlen.
    unfold open_and_scan. rewrite Hr, Hl.
    apply scan_lines_plain_run; [assumption|]. rewrite Hlen. lia.
  - intros srt fuel root b content pre rest Hr Hl Hpre Hlen.
    rewrite findIncludes_fresh by apply lookup_empty.
    unfold open_and_scan. rewrite Hr, Hl.
    rewrite scan_lines_plain_run; [|assumption|rewrite Hlen; lia].
    eexists. split; [reflexivity|]. simpl.
    rewrite insert_empty. split; [reflexivity|]. apply convert_singleton.
Qed.

Lemma early_stop_heuristic_witness :
  ∃ st', findIncludes late_include_fs 1 "a.wgsl" "" initial_state 0
         = Some (true, st')
         ∧ activeIncludes st' = {["a.wgsl" := 0%N]}
         ∧ convertActiveIncludesToVector merge_std_sort (activeIncludes st')
           = ["a.wgsl"].
Proof.
  destruct (early_stop_heuristic late_include_fs)
    as (_ & _ & _ & _ & _ & _ & _ & _ & H).
  apply (H merge_std_sort 0%nat "a.wgsl" ""
           (unlines (plain_lines ++ [directive "b.wgsl"; "fn a() {}"]))
           plain_lines [directive "b.wgsl"; "fn a() {}"]).
  - reflexivity.
  - reflexivity.
  - repeat constructor.
  - reflexivity.
Defined.

(** ** The head of [findIncludes] *)

Lemma findIncludes_deeper fs fuel (f b : string) st depth d_old :
  activeIncludes st !! f = Some d_old → (d_old < depth)%N →
  findIncludes fs (S fuel) f b st depth
  = Some (true, assign f depth (log (Call f depth) st)).
Proof.
  intros Hf Hlt. apply N.ltb_lt in Hlt.
  simpl. unfold revisit_check. simpl. by rewrite Hf, Hlt.
Qed.

Lemma findIncludes_not_deeper fs fuel (f b : string) st depth d_old :
  activeIncludes st !! f = Some d_old → (depth ≤ d_old)%N →
  findIncludes fs (S fuel) f b st depth
  = open_and_scan fs (findIncludes fs fuel) f b depth (log (Call f depth) st).
Proof.
  intros Hf Hle. apply N.ltb_ge in Hle.
  simpl. unfold revisit_check. simpl. by rewrite Hf, Hle.
Qed.

(** C1, as the code has it. A call on a file whose recorded depth is
    below the depth of the call raises the entry to that depth and
    returns success at once: no other entry changes and the file is
    neither opened nor scanned. *)
Theorem revisit_deeper_returns_at_once fs fuel (f b : string) st depth d_old :
  activeIncludes st !! f = Some d_old → (d_old < depth)%N →
  ∃ st', findIncludes fs (S fuel) f b st depth = Some (true, st')
         ∧ activeIncludes st' = <[f := depth]> (activeIncludes st)
         ∧ trace st' = Call f depth :: trace st.
Proof.
  intros Hf Hlt. eexists. split; [by eapply findIncludes_deeper|].
  split; reflexivity.
Qed.

Lemma revisit_deeper_returns_at_once_witness :
  ∃ st', findIncludes chain_fs 1 "a.wgsl" "" (recorded_at "a.wgsl" 0) 1
         = Some (true, st')
         ∧ activeIncludes st' = <["a.wgsl" := 1%N]> {["a.wgsl" := 0%N]}
         ∧ trace st' = [Call "a.wgsl" 1].
Proof.
  apply (revisit_deeper_returns_at_once chain_fs 0 "a.wgsl" ""
           (recorded_at "a.wgsl" 0) 1%N 0%N).
  - reflexivity.
  - reflexivity.
Defined.

(** The revisit policy as the specification words it fails both ways on
    [chain_fs], where [a.wgsl] includes [b.wgsl]: revisited at depth 1
    with depth 0 recorded, [a.wgsl] is not read again and [b.wgsl] is
    not found; revisited at depth 1 with depth 1 recorded, [a.wgsl] is
    opened and scanned and [b.wgsl] is recorded. *)
Lemma revisit_policy_counterexample :
  (activeIncludes (recorded_at "a.wgsl" 0) !! "a.wgsl" = Some 0%N
   ∧ ∃ st', findIncludes chain_fs 3 "a.wgsl" "" (recorded_at "a.wgsl" 0) 1
            = Some (true, st')
            ∧ trace st' = [Call "a.wgsl" 1]
            ∧ activeIncludes st' !! "b.wgsl" = None)
  ∧ (activeIncludes (recorded_at "a.wgsl" 1) !! "a.wgsl" = Some 1%N
     ∧ ∃ st', findIncludes chain_fs 3 "a.wgsl" "" (recorded_at "a.wgsl" 1) 1
              = Some (true, st')
              ∧ trace st' = [OpenRead "b.wgsl"; Call "b.wgsl" 2;
                             OpenRead "a.wgsl"; Call "a.wgsl" 1]
              ∧ activeIncludes st' !! "b.wgsl" = Some 2%N).
Proof.
  split; (split; [reflexivity|]); eexists;
    (split; [vm_compute; reflexivity|]); split; reflexivity.
Qed.

(** ** Failure of the walk *)

Lemma lookup_erase (f : string) st : activeIncludes (erase f st) !! f = None.
Proof. apply lookup_delete_eq. Qed.

Lemma scan_lines_failure fs visit (f b : string) d lines count st st' :
  scan_lines fs visit f b d lines count st = Some (false, st') →
  activeIncludes st' !! f = None.
Proof.
  revert count st.
  induction lines as [|line rest IH]; intros count st; simpl; [discriminate|].
  destruct (negb (count <? 5)%N); [discriminate|].
  destruct (starts_with include_directive_prefix line); [|apply IH].
  destruct (find_char dquote start_quote_pos line) as [e|]; [|apply IH].
  destruct (removeDot fs _ st) as [p st1].
  destruct (visit p (parent_path fs p) st1 (uint32_succ d))
    as [[[] st2]|]; [apply IH| |discriminate].
  intros [= <-]. apply lookup_erase.
Qed.

Lemma open_and_scan_failure fs visit (f b : string) d st st' :
  open_and_scan fs visit f b d st = Some (false, st') →
  activeIncludes st' !! f = None.
Proof.
  unfold open_and_scan. destruct (read_file fs f).
  - apply scan_lines_failure.
  - intros [= <-]. apply lookup_erase.
Qed.

Lemma findIncludes_failure fs fuel (f b : string) st d st' :
  findIncludes fs fuel f b st d = Some (false, st') →
  activeIncludes st' !! f = None.
Proof.
  destruct fuel as [|fuel]; simpl; [discriminate|].
  destruct (revisit_check f d (log (Call f d) st)) as [[] st1];
    [discriminate|].
  apply open_and_scan_failure.
Qed.

(** C8. A call that reaches the opening of a file that cannot be opened
    reports it, erases the entry of its file and returns failure; a scan
    whose recursive call returns failure erases the entry of its own file
    and returns failure; so every call that returns failure leaves the
    map without an entry for its own file. *)
Theorem failure_unwinding fs :
  (∀ fuel (f b : string) st d,
     read_file fs f = None →
     (revisit_check f d (log (Call f d) st)).1 = false →
     ∃ st', findIncludes fs (S fuel) f b st d = Some (false, st')
            ∧ activeIncludes st' !! f = None
            ∧ Cerr (CouldNotOpen f) ∈ trace st')
  ∧ (∀ visit (f b : string) d line rest count st e st2,
     (count < 5)%N →
     starts_with include_directive_prefix line = true →
     find_char dquote start_quote_pos line = Some e →
     (let ps := removeDot fs
                  (path_join fs b
                     (substring start_quote_pos (e - start_quote_pos) line)) st in
      visit ps.1 (parent_path fs ps.1) ps.2 (uint32_succ d) = Some (false, st2)) →
     scan_lines fs visit f b d (line :: rest) count st
     = Some (false, erase f st2))
  ∧ (∀ fuel (f b : string) st d st',
     findIncludes fs fuel f b st d = Some (false, st') →
     activeIncludes st' !! f = None).
Proof.
  split; [|split].
  - intros fuel f b st d Hr Hc. simpl.
    destruct (revisit_check f d (log (Call f d) st)) as [ret st1].
    simpl in Hc. subst ret. unfold open_and_scan. rewrite Hr.
    eexists. split; [reflexivity|]. split; [apply lookup_erase|].
    simpl. apply list_elem_of_here.
  - intros visit f b d line rest count st e st2 Hc Hp Hq Hv.
    rewrite (scan_lines_directive fs visit f b d line rest count st e Hc Hp Hq).
    simpl in *. by rewrite Hv.
  - intros. by eapply findIncludes_failure.
Qed.

Lemma failure_unwinding_witness :
  ∃ st', findIncludes missing_fs 3 "a.wgsl" "" initial_state 0
         = Some (false, st')
         ∧ activeIncludes st' !! "a.wgsl" = None.
Proof.
  destruct (failure_unwinding missing_fs) as (_ & _ & H).
  eexists. split; [vm_compute; reflexivity|].
  apply (H 3%nat "a.wgsl" "" initial_state 0%N). vm_compute. reflexivity.
Defined.

(** ** A file that includes itself on two lines *)

Lemma self_twice_scan visit d st :
  open_and_scan self_twice_fs visit "a.wgsl" "" d st
  = match visit "a.wgsl" "" (log (OpenRead "a.wgsl") st) (uint32_succ d) with
    | None => None
    | Some (false, st2) => Some (false, erase "a.wgsl" st2)
    | Some (true, st2) =>
        match visit "a.wgsl" "" st2 (uint32_succ d) with
        | None => None
        | Some (false, st3) => Some (false, erase "a.wgsl" st3)
        | Some (true, st3) => Some (true, st3)
        end
    end.
Proof. reflexivity. Qed.

Lemma self_twice_revisit fuel st d r :
  activeIncludes st !! "a.wgsl" = Some r → (d ≤ r)%N →
  findIncludes self_twice_fs fuel "a.wgsl" "" st d = None.
Proof.
  revert st d r. induction fuel as [|fuel IH]; intros st d r Hr Hle;
    [reflexivity|].
  rewrite (findIncludes_not_deeper _ _ _ _ _ _ r Hr Hle), self_twice_scan.
  set (st1 := log (OpenRead "a.wgsl") (log (Call "a.wgsl" d) st)).
  destruct (decide (r < uint32_succ d)%N) as [Hlt|Hge].
  - destruct fuel as [|fuel]; [reflexivity|].
    rewrite (findIncludes_deeper _ _ _ _ st1 _ r Hr Hlt).
    rewrite (IH _ _ (uint32_succ d)); [reflexivity| |lia].
    simpl. apply lookup_insert_eq.
  - rewrite (IH st1 _ r Hr); [reflexivity|lia].
Qed.

Lemma self_twice_walk fuel :
  findIncludes self_twice_fs fuel "a.wgsl" "" initial_state 0 = None.
Proof.
  destruct fuel as [|fuel]; [reflexivity|].
  rewrite findIncludes_fresh by apply lookup_empty.
  rewrite self_twice_scan.
  set (st1 := log (OpenRead "a.wgsl") _).
  assert (activeIncludes st1 !! "a.wgsl" = Some 0%N) as Hr
    by apply lookup_insert_eq.
  destruct fuel as [|fuel]; [reflexivity|].
  rewrite (findIncludes_deeper _ _ _ _ st1 _ 0%N Hr) by reflexivity.
  rewrite (self_twice_revisit _ _ _ (uint32_succ 0)); [reflexivity| |lia].
  simpl. apply lookup_insert_eq.
Qed.

(** ** The emission order *)

Lemma StronglySorted_lookup_lt {A} (R : relation A) (l : list A) i j a c :
  StronglySorted R l → l !! i = Some a → l !! j = Some c → i < j → R a c.
Proof.
  intros Hs. revert i j.
  induction Hs as [|x xs Hs IH Hall]; intros i j Hi Hj Hlt.
  - by rewrite lookup_nil in Hi.
  - destruct j as [|j]; [lia|]. simpl in Hj.
    destruct i as [|i]; simpl in Hi.
    + injection Hi as ->. rewrite Forall_forall in Hall.
      apply Hall. by eapply list_elem_of_lookup_2.
    + eapply (IH i j); [assumption..|lia].
Qed.

Lemma convert_perm srt (m : gmap string N) :
  convertActiveIncludesToVector srt m ≡ₚ (map_to_list m).*1.
Proof.
  unfold convertActiveIncludesToVector.
  rewrite (sort_perm srt). rewrite <- list_fmap_compose.
  erewrite list_fmap_ext; [reflexivity|]. by intros i [k v] _.
Qed.

Lemma convert_NoDup srt (m : gmap string N) :
  NoDup (convertActiveIncludesToVector srt m).
Proof. rewrite convert_perm. apply NoDup_fst_map_to_list. Qed.

Lemma convert_elem_of srt (m : gmap string N) (f : string) :
  f ∈ convertActiveIncludesToVector srt m ↔ is_Some (m !! f).
Proof.
  rewrite convert_perm, list_elem_of_fmap. split.
  - intros ([k v] & -> & Hin). apply elem_of_map_to_list in Hin. by eexists.
  - intros [v Hv]. exists (f, v). split; [reflexivity|].
    by apply elem_of_map_to_list.
Qed.

Lemma sorted_pair_recorded srt (m : gmap string N) i (p : N * string) :
  sort_fn srt ((λ pair : string * N, (pair.2, pair.1)) <$> map_to_list m) !! i
    = Some p →
  m !! p.2 = Some p.1.
Proof.
  intros Hi. apply list_elem_of_lookup_2 in Hi.
  rewrite (sort_perm srt) in Hi.
  apply list_elem_of_fmap in Hi as ([k v] & -> & Hin).
  by apply elem_of_map_to_list in Hin.
Qed.

(** C6. The files are emitted in the order of
    [convertActiveIncludesToVector]: every entry of the depth map once,
    and of two emitted files the one recorded strictly deeper comes
    first. *)
Theorem emission_order_descending srt (m : gmap string N) :
  convertActiveIncludesToVector srt m ≡ₚ (map_to_list m).*1
  ∧ NoDup (convertActiveIncludesToVector srt m)
  ∧ ∀ i j (f g : string) df dg,
      convertActiveIncludesToVector srt m !! i = Some f →
      convertActiveIncludesToVector srt m !! j = Some g →
      m !! f = Some df → m !! g = Some dg →
      (dg < df)%N → i < j.
Proof.
  split; [apply convert_perm|]. split; [apply convert_NoDup|].
  intros i j f g df dg Hi Hj Hf Hg Hlt.
  unfold convertActiveIncludesToVector in Hi, Hj.
  apply list_lookup_fmap_Some in Hi as (p & -> & Hp).
  apply list_lookup_fmap_Some in Hj as (q & -> & Hq).
  pose proof (sorted_pair_recorded _ _ _ _ Hp) as Hp'.
  pose proof (sorted_pair_recorded _ _ _ _ Hq) as Hq'.
  rewrite Hf in Hp'. rewrite Hg in Hq'.
  injection Hp' as Hp'. injection Hq' as Hq'.
  destruct (decide (i < j)) as [|Hge]; [assumption|exfalso].
  destruct (decide (i = j)) as [->|Hne].
  - rewrite Hp in Hq. injection Hq as ->. lia.
  - pose proof (StronglySorted_lookup_lt not_before _ j i q p
                  (sort_sorted srt _) Hq Hp ltac:(lia)) as Hnb.
    unfold not_before, depth_greater in Hnb. apply N.ltb_ge in Hnb. lia.
Qed.

Lemma emission_order_descending_witness :
  let m : gmap string N :=
    <["b.wgsl" := 2%N]> (<["c.wgsl" := 1%N]> (<["a.wgsl" := 0%N]> ∅)) in
  let out := convertActiveIncludesToVector merge_std_sort m in
  out !! 0 = Some "b.wgsl" ∧ out !! 2 = Some "a.wgsl" ∧ 0 < 2.
Proof.
  intros m out. split; [reflexivity|]. split; [reflexivity|].
  destruct (emission_order_descending merge_std_sort m) as (_ & _ & H).
  apply (H 0 2 "b.wgsl" "a.wgsl" 2%N 0%N); reflexivity.
Defined.

(** ** The filter of the emission pass *)

Lemma append_nil_l (b : string) : "" ++ b = b.
Proof. reflexivity. Qed.

Lemma append_cons (x : ascii) (a b : string) :
  String x a ++ b = String x (a ++ b).
Proof. reflexivity. Qed.

Lemma append_assoc (a b c : string) : (a ++ b) ++ c = a ++ (b ++ c).
Proof.
  induction a as [|x a IH]; [reflexivity|].
  by rewrite !append_cons, IH.
Qed.

Lemma append_empty_r (a : string) : a ++ "" = a.
Proof.
  induction a as [|x a IH]; [reflexivity|]. by rewrite append_cons, IH.
Qed.

Lemma prefix_append (pre s : string) :
  String.prefix pre s = true ↔ ∃ after, s = pre ++ after.
Proof.
  revert s. induction pre as [|x pre IH]; intros s.
  - split; [intros _; by exists s|intros _; by destruct s].
  - destruct s as [|y s].
    + split; [discriminate|]. intros [after Ha]. discriminate.
    + change (String.prefix (String x pre) (String y s))
        with (if ascii_dec x y then String.prefix pre s else false).
      destruct (ascii_dec x y) as [->|Hne].
      * rewrite IH. split.
        -- intros [after ->]. by exists after.
        -- intros [after Ha]. rewrite append_cons in Ha.
           injection Ha as ->. by exists after.
      * split; [discriminate|]. intros [after Ha].
        rewrite append_cons in Ha. injection Ha as <- _. by destruct Hne.
Qed.

Lemma str_find_unfold (needle s : string) :
  str_find needle s
  = if String.prefix needle s then Some O
    else match s with
         | EmptyString => None
         | String _ s' => option_map S (str_find needle s')
         end.
Proof. by destruct s. Qed.

Lemma str_find_occurs (needle s : string) :
  is_Some (str_find needle s) ↔ occurs_in needle s.
Proof.
  induction s as [|c s IH]; rewrite str_find_unfold.
  - destruct (String.prefix needle "") eqn:Hp.
    + split; [intros _|by eexists].
      apply prefix_append in Hp as [after Ha].
      exists "", after. exact Ha.
    + split; [by intros [? [=]]|].
      intros (before & after & Heq).
      destruct before; [|discriminate]. rewrite append_nil_l in Heq.
      assert (String.prefix needle "" = true) as Ht
        by (apply prefix_append; by exists after).
      congruence.
  - destruct (String.prefix needle (String c s)) eqn:Hp.
    + split; [intros _|by eexists].
      apply prefix_append in Hp as [after Ha].
      exists "", after. exact Ha.
    + change (option_map S (str_find needle s)) with (S <$> str_find needle s).
      rewrite fmap_is_Some, IH. split.
      * intros (before & after & ->). by exists (String c before), after.
      * intros (before & after & Heq). destruct before as [|x before].
        -- rewrite append_nil_l in Heq.
           assert (String.prefix needle (String c s) = true) as Ht
             by (apply prefix_append; by exists after).
           congruence.
        -- rewrite append_cons in Heq. injection Heq as _ ->.
           by exists before, after.
Qed.

Lemma lacks_include_spec (line : string) :
  lacks_include line = false ↔ occurs_in "#include" line.
Proof.
  rewrite <- str_find_occurs. unfold lacks_include.
  destruct (str_find "#include" line).
  - split; [by eexists|reflexivity].
  - split; [discriminate|]. by intros [? [=]].
Qed.

(** What the inner loop of the emission writes for [lines]. *)
Lemma emit_lines_filter (lines : list string) (out : string) :
  emit_lines lines out = out ++ unlines (List.filter lacks_include lines).
Proof.
  revert out. induction lines as [|line rest IH]; intros out; simpl.
  - by rewrite append_empty_r.
  - destruct (lacks_include line); simpl; rewrite IH; [|reflexivity].
    by rewrite !append_assoc.
Qed.

(** C7. In the emission pass a line is left out exactly when the text
    [#include] occurs somewhere in it, directive or not; every other
    line is written as it is, followed by the line end, in the order of
    the file. *)
Theorem emission_filter :
  (∀ line, lacks_include line = false ↔ occurs_in "#include" line)
  ∧ (∀ line rest out,
       emit_lines (line :: rest) out
       = emit_lines rest (if lacks_include line then out ++ line ++ endl else out))
  ∧ (∀ lines out,
       emit_lines lines out = out ++ unlines (List.filter lacks_include lines))
  ∧ (∀ fs (f : string) rest out st content,
       read_file fs f = Some content →
       emit_files fs (f :: rest) out st
       = emit_files fs rest
           (out ++ unlines (List.filter lacks_include (getlines content)))
           (log (OpenRead f) st)).
Proof.
  split; [apply lacks_include_spec|]. split; [|split].
  - intros line rest out. simpl. by destruct (lacks_include line).
  - apply emit_lines_filter.
  - intros fs f rest out st content Hr. simpl.
    by rewrite Hr, emit_lines_filter.
Qed.

Lemma emission_filter_witness :
  emit_files chain_fs ["a.wgsl"] "" initial_state
  = ("fn a() {}" ++ endl, log (OpenRead "a.wgsl") initial_state).
Proof.
  destruct emission_filter as (_ & _ & _ & H).
  rewrite (H chain_fs "a.wgsl" [] "" initial_state
             (unlines [directive "b.wgsl"; "fn a() {}"]) eq_refl).
  reflexivity.
Defined.

(** ** The exit code *)




(** ** Relating the states before and after a successful call *)

Section WalkRelation.

Context (fs : filesystem) (R : relation walk_state).
Hypothesis R_refl : ∀ st, R st st.
Hypothesis R_trans : ∀ st1 st2 st3, R st1 st2 → R st2 st3 → R st1 st3.
Hypothesis R_open : ∀ f st, R st (log (OpenRead f) st).
Hypothesis R_cerr : ∀ msg st, R st (log (Cerr msg) st).
Hypothesis R_enter :
  ∀ (f : string) d st, R st (revisit_check f d (log (Call f d) st)).2.

Lemma removeDot_rel p st : R st (removeDot fs p st).2.
Proof. unfold removeDot. destruct (canonical fs p); simpl; auto. Qed.

Lemma scan_lines_success_rel (visit : visitor) (f b : string) d lines count st st' :
  (∀ p q s x s', visit p q s x = Some (true, s') → R s s') →
  scan_lines fs visit f b d lines count st = Some (true, st') → R st st'.
Proof.
  intros Hvisit. revert count st.
  induction lines as [|line rest IH]; intros count st; simpl.
  - intros [= <-]. apply R_refl.
  - destruct (negb (count <? 5)%N); [intros [= <-]; apply R_refl|].
    destruct (starts_with include_directive_prefix line); [|apply IH].
    destruct (find_char dquote start_quote_pos line) as [e|].
    + pose proof (removeDot_rel
        (path_join fs b (substring start_quote_pos (e - start_quote_pos) line))
        st) as Hrd.
      destruct (removeDot fs _ st) as [p st1]. simpl in Hrd.
      destruct (visit p (parent_path fs p) st1 (uint32_succ d))
        as [[[] st2]|] eqn:Hv; [|discriminate..].
      intros Hscan. eapply R_trans; [exact Hrd|].
      eapply R_trans; [by eapply Hvisit|]. by eapply IH.
    + intros Hscan. eapply R_trans; [apply R_cerr|]. by eapply IH.
Qed.

Lemma findIncludes_success_rel fuel (f b : string) st d st' :
  findIncludes fs fuel f b st d = Some (true, st') → R st st'.
Proof.
  revert f b st d st'.
  induction fuel as [|fuel IH]; intros f b st d st'; simpl; [discriminate|].
  pose proof (R_enter f d st) as He.
  destruct (revisit_check f d (log (Call f d) st)) as [[] st1]; simpl in He.
  - by intros [= <-].
  - unfold open_and_scan. destruct (read_file fs f); [|discriminate].
    intros Hscan. eapply R_trans; [exact He|].
    eapply R_trans; [apply R_open|].
    eapply scan_lines_success_rel; [|exact Hscan]. apply IH.
Qed.

End WalkRelation.

(** ** The depth map and the calls made *)

Lemma depth_invariant_initial : depth_invariant initial_state.
Proof. intros f. simpl. rewrite lookup_empty. intros d Hd. by apply elem_of_nil in Hd. Qed.

Lemma depth_invariant_log e st :
  (∀ f d, e ≠ Call f d) → depth_invariant st → depth_invariant (log e st).
Proof.
  intros He Hinv f. specialize (Hinv f). simpl.
  destruct (activeIncludes st !! f) as [m|].
  - destruct Hinv as [Hin Hmax]. split.
    + by apply list_elem_of_further.
    + intros d Hd. apply elem_of_cons in Hd as [Hd|Hd]; [|by apply Hmax].
      symmetry in Hd. by apply He in Hd.
  - intros d Hd. apply elem_of_cons in Hd as [Hd|Hd]; [|by eapply Hinv].
    symmetry in Hd. by apply He in Hd.
Qed.

Lemma depth_invariant_enter (f : string) d st :
  depth_invariant st →
  depth_invariant (revisit_check f d (log (Call f d) st)).2.
Proof.
  intros Hinv g. unfold revisit_check. simpl.
  pose proof (Hinv f) as Hf. pose proof (Hinv g) as Hg.
  assert (∀ x, g ≠ f → Call g x ∈ Call f d :: trace st ↔ Call g x ∈ trace st)
    as Hother.
  { intros x Hne. rewrite elem_of_cons. split; [|by right].
    intros [[= ?]|?]; [contradiction|assumption]. }
  destruct (activeIncludes st !! f) as [d_old|] eqn:Hlook.
  - destruct (d_old <? d)%N eqn:Hlt; simpl.
    + apply N.ltb_lt in Hlt. destruct (decide (g = f)) as [->|Hne].
      * rewrite lookup_insert_eq. split; [apply list_elem_of_here|].
        intros x Hx. apply elem_of_cons in Hx as [[= ->]|Hx]; [lia|].
        destruct Hf as [_ Hmax]. apply Hmax in Hx. lia.
      * rewrite lookup_insert_ne by done.
        destruct (activeIncludes st !! g) as [m|].
        -- destruct Hg as [Hin Hmax]. split; [by apply Hother|].
           intros x Hx. apply Hmax. by apply Hother.
        -- intros x Hx. apply (Hg x). by apply Hother.
    + apply N.ltb_ge in Hlt. destruct (decide (g = f)) as [->|Hne].
      * rewrite Hlook. destruct Hf as [Hin Hmax].
        split; [by apply list_elem_of_further|].
        intros x Hx. apply elem_of_cons in Hx as [[= ->]|Hx];
          [assumption|by apply Hmax].
      * destruct (activeIncludes st !! g) as [m|].
        -- destruct Hg as [Hin Hmax]. split; [by apply Hother|].
           intros x Hx. apply Hmax. by apply Hother.
        -- intros x Hx. apply (Hg x). by apply Hother.
  - simpl. destruct (decide (g = f)) as [->|Hne].
    + rewrite lookup_insert_eq. split; [apply list_elem_of_here|].
      intros x Hx. apply elem_of_cons in Hx as [[= ->]|Hx]; [lia|].
      by apply Hf in Hx.
    + rewrite lookup_insert_ne by done.
      destruct (activeIncludes st !! g) as [m|].
      * destruct Hg as [Hin Hmax]. split; [by apply Hother|].
        intros x Hx. apply Hmax. by apply Hother.
      * intros x Hx. apply (Hg x). by apply Hother.
Qed.

Lemma never_decreases_refl st : never_decreases st st.
Proof. intros f d Hf. exists d. split; [assumption|lia]. Qed.

Lemma never_decreases_trans st1 st2 st3 :
  never_decreases st1 st2 → never_decreases st2 st3 → never_decreases st1 st3.
Proof.
  intros H12 H23 f d Hf.
  destruct (H12 f d Hf) as (d2 & Hf2 & Hle2).
  destruct (H23 f d2 Hf2) as (d3 & Hf3 & Hle3).
  exists d3. split; [assumption|lia].
Qed.

Lemma never_decreases_enter (f : string) d st :
  never_decreases st (revisit_check f d (log (Call f d) st)).2.
Proof.
  intros g x Hg. unfold revisit_check. simpl.
  destruct (activeIncludes st !! f) as [d_old|] eqn:Hlook.
  - destruct (d_old <? d)%N eqn:Hlt; simpl.
    + apply N.ltb_lt in Hlt. destruct (decide (g = f)) as [->|Hne].
      * rewrite lookup_insert_eq. exists d. split; [reflexivity|].
        rewrite Hlook in Hg. injection Hg as ->. lia.
      * rewrite lookup_insert_ne by done. exists x. split; [assumption|lia].
    + exists x. split; [assumption|lia].
  - simpl. destruct (decide (g = f)) as [->|Hne]; [congruence|].
    rewrite lookup_insert_ne by done. exists x. split; [assumption|lia].
Qed.

Lemma never_decreases_log e st : never_decreases st (log e st).
Proof. intros f d Hf. exists d. split; [assumption|lia]. Qed.

Lemma walk_keeps_depth_invariant fs fuel (f b : string) st d st' :
  findIncludes fs fuel f b st d = Some (true, st') →
  (depth_invariant st → depth_invariant st') ∧ never_decreases st st'.
Proof.
  apply (findIncludes_success_rel fs
    (λ s s', (depth_invariant s → depth_invariant s') ∧ never_decreases s s')).
  - intros s. split; [done|apply never_decreases_refl].
  - intros s1 s2 s3 [Hi12 Hn12] [Hi23 Hn23].
    split; [auto|by eapply never_decreases_trans].
  - intros g s. split; [by apply depth_invariant_log|apply never_decreases_log].
  - intros msg s. split; [by apply depth_invariant_log|apply never_decreases_log].
  - intros g x s. split; [apply depth_invariant_enter|apply never_decreases_enter].
Qed.

(** C4. When every entry of the depth map is the largest depth at which
    its file has been called so far, this still holds once a call has
    gone through the head of [findIncludes], and again when a call has
    returned success, that is, without an open failure below it. Over
    such a call no entry is lost or lowered, and a file called at two
    depths is recorded at least at the larger of them. *)
Theorem depth_map_invariant fs fuel (f b : string) st d st' :
  depth_invariant st →
  depth_invariant (revisit_check f d (log (Call f d) st)).2
  ∧ (findIncludes fs fuel f b st d = Some (true, st') →
     depth_invariant st'
     ∧ never_decreases st st'
     ∧ ∀ (g : string) d1 d2,
         Call g d1 ∈ trace st' → Call g d2 ∈ trace st' →
         ∃ m, activeIncludes st' !! g = Some m
              ∧ Call g m ∈ trace st' ∧ (N.max d1 d2 ≤ m)%N).
Proof.
  intros Hinv. split; [by apply depth_invariant_enter|].
  intros Hwalk.
  destruct (walk_keeps_depth_invariant _ _ _ _ _ _ _ Hwalk) as [Hkeep Hmono].
  specialize (Hkeep Hinv). split; [assumption|]. split; [assumption|].
  intros g d1 d2 H1 H2. specialize (Hkeep g).
  destruct (activeIncludes st' !! g) as [m|].
  - destruct Hkeep as [Hin Hmax]. exists m.
    split; [reflexivity|]. split; [assumption|].
    apply Hmax in H1. apply Hmax in H2. lia.
  - by apply Hkeep in H1.
Qed.

Lemma depth_map_invariant_witness :
  ∃ st', findIncludes diamond_fs 3 "a.wgsl" "" initial_state 0 = Some (true, st')
         ∧ depth_invariant st'
         ∧ activeIncludes st' !! "b.wgsl" = Some 2%N.
Proof.
  destruct (findIncludes diamond_fs 3 "a.wgsl" "" initial_state 0)
    as [[[] st']|] eqn:Hw; [|vm_compute in Hw; discriminate..].
  exists st'. split; [reflexivity|].
  destruct (depth_map_invariant diamond_fs 3 "a.wgsl" "" initial_state 0%N st'
              depth_invariant_initial) as [_ H].
  destruct (H Hw) as (Hinv & _ & _). split; [exact Hinv|].
  vm_compute in Hw. injection Hw as <-. reflexivity.
Defined.

(** ** Acyclic include graphs *)

Lemma removeDot_map fs p st :
  activeIncludes (removeDot fs p st).2 = activeIncludes st.
Proof. unfold removeDot. by destruct (canonical fs p). Qed.

Lemma grows_refl (m : gmap string N) : grows m m.
Proof. by intros f. Qed.

Lemma grows_trans (m1 m2 m3 : gmap string N) :
  grows m1 m2 → grows m2 m3 → grows m1 m3.
Proof. intros H12 H23 f Hf. auto. Qed.

Lemma grows_insert (m : gmap string N) (f : string) d : grows m (<[f := d]> m).
Proof.
  intros g Hg. destruct (decide (f = g)) as [->|Hne].
  - rewrite lookup_insert_eq. by eexists.
  - by rewrite lookup_insert_ne.
Qed.

Lemma is_Some_insert_present (m : gmap string N) (f g : string) d :
  is_Some (m !! f) → is_Some (<[f := d]> m !! g) ↔ is_Some (m !! g).
Proof.
  intros Hf. destruct (decide (f = g)) as [->|Hne].
  - rewrite lookup_insert_eq. split; [done|by eexists].
  - by rewrite lookup_insert_ne.
Qed.

Section Acyclic.

Context (fs : filesystem) (root : string) (rank : string → nat).
Hypothesis rank_decreases :
  ∀ f g, reachable fs root f → g ∈ includes_of fs f → rank g < rank f.
Hypothesis reachable_opens :
  ∀ f, reachable fs root f → is_Some (read_file fs f).

(** What the walk maintains on the depth map. *)
Let walk_inv (pending : gset string) (m : gmap string N) : Prop :=
  closed_except fs pending m ∧ ∀ f, is_Some (m !! f) → reachable fs root f.

(** What a visit of a reachable file of rank below [n] achieves. *)
Let visits_well (n : nat) (visit : visitor) : Prop :=
  ∀ (g : string) st d pending,
    rank g < n → reachable fs root g →
    walk_inv pending (activeIncludes st) →
    ∃ st', visit g (parent_path fs g) st d = Some (true, st')
           ∧ grows (activeIncludes st) (activeIncludes st')
           ∧ is_Some (activeIncludes st' !! g)
           ∧ walk_inv pending (activeIncludes st').

Lemma scan_lines_acyclic n visit (f : string) d pending lines count st :
  visits_well n visit →
  (∀ name, name ∈ window_includes lines count →
     rank (resolve fs (parent_path fs f) name) < n
     ∧ reachable fs root (resolve fs (parent_path fs f) name)) →
  walk_inv pending (activeIncludes st) →
  ∃ st', scan_lines fs visit f (parent_path fs f) d lines count st
         = Some (true, st')
         ∧ grows (activeIncludes st) (activeIncludes st')
         ∧ (∀ name, name ∈ window_includes lines count →
              is_Some (activeIncludes st' !! resolve fs (parent_path fs f) name))
         ∧ walk_inv pending (activeIncludes st').
Proof.
  intros Hvisit. revert count st.
  induction lines as [|line rest IH]; intros count st Hnames Hinv; simpl.
  { exists st. split; [reflexivity|]. split; [apply grows_refl|].
    split; [|assumption]. intros name Hn. by apply elem_of_nil in Hn. }
  simpl in Hnames.
  destruct (negb (count <? 5)%N).
  { exists st. split; [reflexivity|]. split; [apply grows_refl|].
    split; [|assumption]. intros name Hn. by apply elem_of_nil in Hn. }
  destruct (starts_with include_directive_prefix line); [|by apply IH].
  destruct (find_char dquote start_quote_pos line) as [e|];
    [|exact (IH _ (log (Cerr (MalformedInclude f line)) st) Hnames Hinv)].
  set (name := substring start_quote_pos (e - start_quote_pos) line) in *.
  pose proof (resolve_removeDot fs (path_join fs (parent_path fs f) name) st)
    as Hp.
  pose proof (removeDot_map fs (path_join fs (parent_path fs f) name) st)
    as Hm.
  destruct (removeDot fs _ st) as [p st1]. simpl in Hp, Hm.
  fold (resolve fs (parent_path fs f) name) in Hp. subst p.
  destruct (Hnames name) as [Hrank Hreach]; [apply list_elem_of_here|].
  destruct (Hvisit _ st1 (uint32_succ d) pending Hrank Hreach)
    as (st2 & -> & Hg2 & Hin2 & Hinv2); [by rewrite Hm|].
  destruct (IH 0%N st2) as (st3 & Hscan & Hg3 & Hin3 & Hinv3);
    [intros n' Hn'; apply Hnames; by apply list_elem_of_further|assumption|].
  exists st3. split; [assumption|].
  split; [rewrite <- Hm; by eapply grows_trans|].
  split; [|assumption].
  intros n' Hn'. apply elem_of_cons in Hn' as [->|Hn']; [by apply Hg3|auto].
Qed.

Lemma findIncludes_acyclic n : visits_well n (findIncludes fs n).
Proof.
  induction n as [|n IH]; intros f st d pending Hrank Hreach [Hclosed Hdom];
    [lia|].
  destruct (reachable_opens f Hreach) as [content Hcontent].
  assert (∀ st1,
    grows (activeIncludes st) (activeIncludes st1) →
    is_Some (activeIncludes st1 !! f) →
    (∀ g, is_Some (activeIncludes st1 !! g) →
          g = f ∨ is_Some (activeIncludes st !! g)) →
    ∃ st', open_and_scan fs (findIncludes fs n) f (parent_path fs f) d st1
           = Some (true, st')
           ∧ grows (activeIncludes st) (activeIncludes st')
           ∧ is_Some (activeIncludes st' !! f)
           ∧ walk_inv pending (activeIncludes st')) as Hscan.
  { intros st1 Hg1 Hf1 Hold1. unfold open_and_scan. rewrite Hcontent.
    assert (∀ name, name ∈ window_includes (getlines content) 0%N →
              resolve fs (parent_path fs f) name ∈ includes_of fs f) as Hinc.
    { intros name Hn. unfold includes_of. rewrite Hcontent.
      apply list_elem_of_fmap. by exists name. }
    destruct (scan_lines_acyclic n (findIncludes fs n) f d (pending ∪ {[f]})
                (getlines content) 0%N (log (OpenRead f) st1) IH)
      as (st' & Hs & Hg' & Hin' & Hc' & Hd').
    - intros name Hn. apply Hinc in Hn. split.
      + pose proof (rank_decreases f _ Hreach Hn). lia.
      + by eapply reachable_step.
    - split.
      + intros x Hx Hnot g Hgx. apply Hg1.
        rewrite not_elem_of_union, not_elem_of_singleton in Hnot.
        destruct Hnot as [Hnot Hne].
        destruct (Hold1 x Hx) as [->|Hx']; [done|].
        by apply (Hclosed x Hx').
      + intros x Hx. destruct (Hold1 x Hx) as [->|Hx']; auto.
    - exists st'. split; [assumption|].
      split; [by eapply grows_trans|]. split; [by apply Hg'|].
      split; [|assumption].
      intros x Hx Hnot g Hgx. destruct (decide (x = f)) as [->|Hne].
      + unfold includes_of in Hgx. rewrite Hcontent in Hgx.
        apply list_elem_of_fmap in Hgx as (name & -> & Hn). by apply Hin'.
      + apply (Hc' x Hx); [|assumption].
        rewrite not_elem_of_union, not_elem_of_singleton. by split. }
  simpl. unfold revisit_check. simpl.
  destruct (activeIncludes st !! f) as [d_old|] eqn:Hlook.
  - destruct (d_old <? d)%N.
    + eexists. split; [reflexivity|]. simpl.
      split; [apply grows_insert|].
      split; [rewrite lookup_insert_eq; by eexists|].
      assert (is_Some (activeIncludes st !! f)) as Hf by by eexists.
      split.
      * intros x Hx Hnot g Hgx. apply is_Some_insert_present; [assumption|].
        apply is_Some_insert_present in Hx; [|assumption].
        by apply (Hclosed x).
      * intros x Hx. apply is_Some_insert_present in Hx; auto.
    + apply Hscan; [apply grows_refl|by eexists|auto].
  - apply Hscan; simpl.
    + apply grows_insert.
    + rewrite lookup_insert_eq. by eexists.
    + intros g Hg. destruct (decide (f = g)) as [->|Hne]; [by left|].
      right. by rewrite lookup_insert_ne in Hg.
Qed.

Lemma closed_reachable (m : gmap string N) :
  closed_except fs ∅ m → is_Some (m !! root) →
  ∀ f, reachable fs root f → is_Some (m !! f).
Proof.
  intros Hclosed Hroot f Hf.
  induction Hf as [|f g Hf IH Hg]; [assumption|].
  apply (Hclosed f IH); [apply not_elem_of_empty|assumption].
Qed.

Lemma acyclic_walk fuel :
  rank root < fuel →
  ∃ st, findIncludes fs fuel root (parent_path fs root) initial_state 0
        = Some (true, st)
        ∧ ∀ f, reachable fs root f ↔ is_Some (activeIncludes st !! f).
Proof.
  intros Hfuel.
  destruct (findIncludes_acyclic fuel root initial_state 0%N ∅ Hfuel)
    as (st & Hw & _ & Hroot & Hclosed & Hdom).
  - apply reachable_root.
  - split.
    + intros f Hf. simpl in Hf. rewrite lookup_empty in Hf. by destruct Hf.
    + intros f Hf. simpl in Hf. rewrite lookup_empty in Hf. by destruct Hf.
  - exists st. split; [assumption|]. intros f. split; [|apply Hdom].
    by apply closed_reachable.
Qed.

End Acyclic.

Lemma file_chunk_filter fs (f : string) content :
  read_file fs f = Some content →
  file_chunk fs f = unlines (List.filter lacks_include (getlines content)).
Proof.
  intros Hr. unfold file_chunk. rewrite Hr.
  by rewrite emit_lines_filter, append_nil_l.
Qed.

Lemma emit_files_chunks fs includes out st :
  (emit_files fs includes out st).1 = out ++ chunks fs includes.
Proof.
  revert out st. induction includes as [|f rest IH]; intros out st; simpl.
  - by rewrite append_empty_r.
  - unfold file_chunk. destruct (read_file fs f) as [content|]; rewrite IH.
    + rewrite (emit_lines_filter _ out), (emit_lines_filter _ "").
      by rewrite append_nil_l, append_assoc.
    + by rewrite append_nil_l.
Qed.

(** C3, as the code has it. When the files reachable from the root
    through the includes that the scan finds (inside its window) all
    open, and a rank that falls along every such include shows that there
    is no cycle, the walk returns success with any bound on nested calls
    above the rank of the root; the files emitted are then exactly the
    reachable files, each once, and the output is their filtered texts
    in the emission order. *)
Theorem acyclic_includes_emitted_once fs srt (root : string)
    (rank : string → nat) fuel :
  (∀ f g, reachable fs root f → g ∈ includes_of fs f → rank g < rank f) →
  (∀ f, reachable fs root f → is_Some (read_file fs f)) →
  rank root < fuel →
  ∃ st, findIncludes fs fuel root (parent_path fs root) initial_state 0
        = Some (true, st)
        ∧ NoDup (convertActiveIncludesToVector srt (activeIncludes st))
        ∧ (∀ f, reachable fs root f
                ↔ f ∈ convertActiveIncludesToVector srt (activeIncludes st))
        ∧ (emit_files fs
             (convertActiveIncludesToVector srt (activeIncludes st)) "" st).1
          = chunks fs (convertActiveIncludesToVector srt (activeIncludes st)).
Proof.
  intros Hrank Hopen Hfuel.
  destruct (acyclic_walk fs root rank Hrank Hopen fuel Hfuel) as (st & Hw & Hdom).
  exists st. split; [assumption|]. split; [apply convert_NoDup|].
  split.
  - intros f. by rewrite convert_elem_of.
  - by rewrite emit_files_chunks, append_nil_l.
Qed.

Lemma chain_includes (f g : string) :
  g ∈ includes_of chain_fs f → f = "a.wgsl" ∧ g = "b.wgsl".
Proof.
  unfold includes_of, chain_fs, flat_fs. cbn [read_file assoc].
  destruct (String.eqb_spec "a.wgsl" f) as [<-|_].
  - intros Hg.
    replace (resolve _ _ <$> _) with ["b.wgsl"] in Hg
      by (vm_compute; reflexivity).
    apply list_elem_of_singleton in Hg. by split.
  - destruct (String.eqb_spec "b.wgsl" f) as [<-|_].
    + intros Hg.
      replace (resolve _ _ <$> _) with (@nil string) in Hg
        by (vm_compute; reflexivity).
      by apply elem_of_nil in Hg.
    + intros Hg. by apply elem_of_nil in Hg.
Qed.

Lemma chain_rank_decreases (f g : string) :
  reachable chain_fs "a.wgsl" f → g ∈ includes_of chain_fs f →
  chain_rank g < chain_rank f.
Proof.
  intros _ Hg. apply chain_includes in Hg as [-> ->].
  unfold chain_rank. simpl. lia.
Qed.

Lemma chain_reachable_opens (f : string) :
  reachable chain_fs "a.wgsl" f → is_Some (read_file chain_fs f).
Proof.
  intros Hf. destruct Hf as [|f g _ Hg]; [by eexists|].
  apply chain_includes in Hg as [_ ->]. by eexists.
Qed.

Lemma acyclic_includes_emitted_once_witness :
  ∃ st, findIncludes chain_fs 2 "a.wgsl" (parent_path chain_fs "a.wgsl")
          initial_state 0 = Some (true, st)
        ∧ NoDup (convertActiveIncludesToVector merge_std_sort (activeIncludes st))
        ∧ (∀ f, reachable chain_fs "a.wgsl" f
                ↔ f ∈ convertActiveIncludesToVector merge_std_sort
                        (activeIncludes st))
        ∧ (emit_files chain_fs
             (convertActiveIncludesToVector merge_std_sort (activeIncludes st))
             "" st).1
          = chunks chain_fs
              (convertActiveIncludesToVector merge_std_sort (activeIncludes st)).
Proof.
  apply (acyclic_includes_emitted_once chain_fs merge_std_sort "a.wgsl"
           chain_rank 2).
  - apply chain_rank_decreases.
  - apply chain_reachable_opens.
  - unfold chain_rank. simpl. lia.
Defined.

(** In [late_include_fs] both files open and [a.wgsl] holds a directive
    for [b.wgsl], on its seventh line; [b.wgsl] is not recorded and its
    text is not in the output. *)
Lemma late_include_not_emitted :
  read_file late_include_fs "a.wgsl"
  = Some (unlines (plain_lines ++ [directive "b.wgsl"; "fn a() {}"]))
  ∧ read_file late_include_fs "b.wgsl" = Some (unlines ["fn b() {}"])
  ∧ ∃ r, main late_include_fs merge_std_sort 2 ["wgslPreprocessor"; "a.wgsl"]
         = Some r
         ∧ exit_code r = 0%Z
         ∧ activeIncludes (final_state r) !! "b.wgsl" = None
         ∧ output r = unlines (plain_lines ++ ["fn a() {}"]).
Proof.
  split; [reflexivity|]. split; [reflexivity|].
  eexists. split; [vm_compute; reflexivity|].
  split; [reflexivity|]. split; vm_compute; reflexivity.
Qed.

(** The cycle of two files: [a.wgsl] includes [b.wgsl], which includes
    [a.wgsl]. The walk returns, with [a.wgsl] raised to depth 2. *)
Example two_cycle_returns :
  let fs := flat_fs [("a.wgsl", unlines [directive "b.wgsl"; "fn a() {}"]);
                     ("b.wgsl", unlines [directive "a.wgsl"; "fn b() {}"])] in
  ∃ st, findIncludes fs 3 "a.wgsl" "" initial_state 0 = Some (true, st)
        ∧ activeIncludes st !! "a.wgsl" = Some 2%N
        ∧ activeIncludes st !! "b.wgsl" = Some 1%N.
Proof.
  intros fs. eexists. split; [vm_compute; reflexivity|].
  split; reflexivity.
Qed.

(** ** Two files that each include both *)

Lemma open_and_scan_never_decreases fs n (f b : string) d st st' :
  open_and_scan fs (findIncludes fs n) f b d st = Some (true, st') →
  never_decreases st st'.
Proof.
  unfold open_and_scan. destruct (read_file fs f); [|discriminate].
  intros Hscan.
  eapply never_decreases_trans; [apply (never_decreases_log (OpenRead f))|].
  eapply (scan_lines_success_rel fs never_decreases);
    [apply never_decreases_refl|apply never_decreases_trans
    |intros; apply never_decreases_log| |exact Hscan].
  intros p q w x w' Hv. by eapply walk_keeps_depth_invariant.
Qed.

Lemma findIncludes_records fs n (f b : string) st d st' :
  findIncludes fs n f b st d = Some (true, st') →
  ∃ r, activeIncludes st' !! f = Some r ∧ (d ≤ r)%N.
Proof.
  destruct n as [|n]; simpl; [discriminate|].
  unfold revisit_check. simpl.
  destruct (activeIncludes st !! f) as [d_old|] eqn:Hlook.
  - destruct (d_old <? d)%N eqn:Hlt.
    + intros [= <-]. simpl. exists d. rewrite lookup_insert_eq.
      split; [reflexivity|lia].
    + intros Hs. apply N.ltb_ge in Hlt.
      apply open_and_scan_never_decreases in Hs.
      destruct (Hs f d_old) as (r & Hr & Hle); [exact Hlook|].
      exists r. split; [assumption|lia].
  - intros Hs. apply open_and_scan_never_decreases in Hs.
    destruct (Hs f d) as (r & Hr & Hle); [simpl; apply lookup_insert_eq|].
    exists r. split; [assumption|lia].
Qed.

Lemma mutual_scan visit (X : string) d st :
  X = "a.wgsl" ∨ X = "b.wgsl" →
  open_and_scan mutual_fs visit X "" d st
  = match visit "b.wgsl" "" (log (OpenRead X) st) (uint32_succ d) with
    | None => None
    | Some (false, st2) => Some (false, erase X st2)
    | Some (true, st2) =>
        match visit "a.wgsl" "" st2 (uint32_succ d) with
        | None => None
        | Some (false, st3) => Some (false, erase X st3)
        | Some (true, st3) => Some (true, st3)
        end
    end.
Proof. intros [->| ->]; reflexivity. Qed.

Lemma mutual_no_failure n (X : string) st d st' :
  X = "a.wgsl" ∨ X = "b.wgsl" →
  findIncludes mutual_fs n X "" st d ≠ Some (false, st').
Proof.
  revert X st d st'.
  induction n as [|n IH]; intros X st d st' HX; [discriminate|].
  simpl. destruct (revisit_check X d (log (Call X d) st)) as [[] st1];
    [discriminate|].
  rewrite mutual_scan by assumption.
  destruct (findIncludes mutual_fs n "b.wgsl" "" _ _) as [[[] st2]|] eqn:H1;
    [|exfalso; eapply IH; [|exact H1]; by right|discriminate].
  destruct (findIncludes mutual_fs n "a.wgsl" "" st2 _) as [[[] st3]|] eqn:H2;
    [discriminate|exfalso; eapply IH; [|exact H2]; by left|discriminate].
Qed.

Lemma mutual_rescan_records n (X : string) st e r st' :
  X = "a.wgsl" ∨ X = "b.wgsl" →
  activeIncludes st !! X = Some r → (e ≤ r)%N →
  findIncludes mutual_fs n X "" st e = Some (true, st') →
  ∃ ra rb, activeIncludes st' !! "a.wgsl" = Some ra
           ∧ activeIncludes st' !! "b.wgsl" = Some rb
           ∧ (uint32_succ e ≤ ra)%N ∧ (uint32_succ e ≤ rb)%N.
Proof.
  intros HX Hr Hle. destruct n as [|n]; [discriminate|].
  rewrite (findIncludes_not_deeper _ _ _ _ _ _ r Hr Hle).
  rewrite mutual_scan by assumption.
  destruct (findIncludes mutual_fs n "b.wgsl" "" _ _) as [[[] st2]|] eqn:H1;
    [|discriminate..].
  destruct (findIncludes mutual_fs n "a.wgsl" "" st2 _) as [[[] st3]|] eqn:H2;
    [|discriminate..].
  intros [= <-].
  destruct (findIncludes_records _ _ _ _ _ _ _ H1) as (rb1 & Hb1 & Hle1).
  destruct (findIncludes_records _ _ _ _ _ _ _ H2) as (ra & Ha & Hlea).
  destruct (walk_keeps_depth_invariant _ _ _ _ _ _ _ H2) as [_ Hmono].
  destruct (Hmono _ _ Hb1) as (rb & Hb & Hleb).
  exists ra, rb. repeat split; [assumption..|lia].
Qed.

Lemma mutual_revisit n (X : string) st e ra rb :
  X = "a.wgsl" ∨ X = "b.wgsl" →
  activeIncludes st !! "a.wgsl" = Some ra →
  activeIncludes st !! "b.wgsl" = Some rb →
  (e ≤ ra)%N → (e ≤ rb)%N →
  (uint32_succ e ≤ ra)%N → (uint32_succ e ≤ rb)%N →
  findIncludes mutual_fs n X "" st e = None.
Proof.
  revert X st e ra rb.
  induction n as [|n IH]; intros X st e ra rb HX Ha Hb Hea Heb Hsa Hsb;
    [reflexivity|].
  assert (∃ r, activeIncludes st !! X = Some r ∧ (e ≤ r)%N) as (r & Hr & Hle).
  { destruct HX as [->| ->]; eauto. }
  rewrite (findIncludes_not_deeper _ _ _ _ _ _ r Hr Hle).
  rewrite mutual_scan by assumption.
  set (st1 := log (OpenRead X) (log (Call X e) st)).
  destruct (findIncludes mutual_fs n "b.wgsl" "" st1 (uint32_succ e))
    as [[[] st2]|] eqn:H1; [|exfalso|reflexivity].
  - destruct (mutual_rescan_records n "b.wgsl" st1 (uint32_succ e) rb st2)
      as (ra2 & rb2 & Ha2 & Hb2 & Hsa2 & Hsb2); [by right|exact Hb|assumption..|].
    destruct (walk_keeps_depth_invariant _ _ _ _ _ _ _ H1) as [_ Hmono].
    destruct (Hmono "a.wgsl" ra) as (ra' & Ha' & Hlea'); [exact Ha|].
    destruct (Hmono "b.wgsl" rb) as (rb' & Hb' & Hleb'); [exact Hb|].
    rewrite Ha2 in Ha'. rewrite Hb2 in Hb'.
    injection Ha' as <-. injection Hb' as <-.
    rewrite (IH "a.wgsl" st2 (uint32_succ e) ra2 rb2);
      [reflexivity|by left|assumption..|lia|lia|assumption|assumption].
  - eapply mutual_no_failure; [|exact H1]. by right.
Qed.

Lemma mutual_walk fuel :
  findIncludes mutual_fs fuel "a.wgsl" "" initial_state 0 = None.
Proof.
  destruct fuel as [|fuel]; [reflexivity|].
  rewrite findIncludes_fresh by apply lookup_empty.
  rewrite mutual_scan by by left.
  set (st1 := log (OpenRead "a.wgsl") _).
  destruct fuel as [|fuel]; [reflexivity|].
  rewrite (findIncludes_fresh _ _ "b.wgsl") by reflexivity.
  rewrite mutual_scan by by right.
  set (st2 := log (OpenRead "b.wgsl") _).
  destruct fuel as [|fuel]; [reflexivity|].
  rewrite (findIncludes_deeper _ _ "b.wgsl" _ st2 _ 1%N) by reflexivity.
  set (st3 := assign "b.wgsl" _ _).
  rewrite (findIncludes_deeper _ _ "a.wgsl" _ st3 _ 0%N) by reflexivity.
  set (st4 := assign "a.wgsl" _ _).
  rewrite (mutual_revisit _ "a.wgsl" st4 _ 2%N 2%N);
    [reflexivity|by left|reflexivity|reflexivity|..];
    by vm_compute.
Qed.

Lemma main_walk_diverges fs srt fuel (prog name : string) :
  canonical fs (path_join fs (parent_path fs (absolute fs prog)) name)
    = Some name →
  findIncludes fs fuel name (parent_path fs name) initial_state 0 = None →
  main fs srt fuel [prog; name] = None.
Proof.
  intros Hcan Hwalk. unfold main.
  cbn [length nth Nat.ltb Nat.leb orb]. by rewrite Hcan, Hwalk.
Qed.

(** C2, at the failing inputs. With [a.wgsl] holding two lines that each
    include [a.wgsl], and again with [a.wgsl] and [b.wgsl] each including
    [b.wgsl] and then [a.wgsl], the walk from [a.wgsl] does not return:
    whatever the bound on nested calls, it is exhausted, and [main]
    produces no exit code. *)
Theorem include_cycle_walk_diverges :
  (∀ fuel,
     findIncludes self_twice_fs fuel "a.wgsl" "" initial_state 0 = None)
  ∧ (∀ srt fuel,
     main self_twice_fs srt fuel ["wgslPreprocessor"; "a.wgsl"] = None)
  ∧ (∀ fuel,
     findIncludes mutual_fs fuel "a.wgsl" "" initial_state 0 = None)
  ∧ (∀ srt fuel,
     main mutual_fs srt fuel ["wgslPreprocessor"; "a.wgsl"] = None).
Proof.
  split; [apply self_twice_walk|]. split; [|split; [apply mutual_walk|]].
  - intros srt fuel. apply main_walk_diverges; [reflexivity|].
    apply self_twice_walk.
  - intros srt fuel. apply main_walk_diverges; [reflexivity|].
    apply mutual_walk.
Qed.

(** * Further properties *)

(** ** Lines and line feeds *)

Lemma getlines_cons_newline (rest : string) :
  getlines (String newline rest) = EmptyString :: getlines rest.
Proof. reflexivity. Qed.

Lemma getlines_cons_other (c : ascii) (rest : string) :
  Ascii.eqb c newline = false →
  getlines (String c rest)
  = match getlines rest with
    | [] => [String c EmptyString]
    | l :: ls => String c l :: ls
    end.
Proof. intros Hc. cbn [getlines]. by rewrite Hc. Qed.

Lemma getlines_nil (s : string) : getlines s = [] → s = EmptyString.
Proof.
  destruct s as [|c rest]; [reflexivity|].
  destruct (Ascii.eqb c newline) eqn:Hc.
  - apply Ascii.eqb_eq in Hc as ->. by rewrite getlines_cons_newline.
  - rewrite getlines_cons_other by assumption.
    by destruct (getlines rest).
Qed.

Lemma getlines_no_newline (s l : string) :
  l ∈ getlines s → has_char newline l = false.
Proof.
  revert l. induction s as [|c rest IH]; intros l Hl.
  - by apply elem_of_nil in Hl.
  - destruct (Ascii.eqb c newline) eqn:Hc.
    + apply Ascii.eqb_eq in Hc as ->. rewrite getlines_cons_newline in Hl.
      apply elem_of_cons in Hl as [->|Hl]; [reflexivity|by apply IH].
    + rewrite getlines_cons_other in Hl by assumption.
      destruct (getlines rest) as [|l0 ls].
      * apply list_elem_of_singleton in Hl as ->. cbn [has_char].
        by rewrite Hc.
      * apply elem_of_cons in Hl as [->|Hl].
        -- cbn [has_char]. rewrite Hc. apply IH, list_elem_of_here.
        -- by apply IH, list_elem_of_further.
Qed.

Lemma getlines_line (l rest : string) :
  has_char newline l = false →
  getlines (l ++ endl ++ rest) = l :: getlines rest.
Proof.
  induction l as [|c l IH]; intros Hl.
  - reflexivity.
  - cbn [has_char] in Hl. apply orb_false_iff in Hl as [Hc Hl].
    rewrite append_cons, getlines_cons_other by assumption.
    by rewrite IH.
Qed.

Lemma getlines_unlines (ls : list string) :
  Forall (λ l, has_char newline l = false) ls →
  getlines (unlines ls) = ls.
Proof.
  induction 1 as [|l ls Hl Hls IH]; [reflexivity|].
  cbn [unlines]. by rewrite getlines_line, IH.
Qed.

Lemma unlines_getlines (s : string) :
  unlines (getlines s) = if newline_terminated s then s else s ++ endl.
Proof.
  induction s as [|c rest IH]; [reflexivity|].
  destruct (Ascii.eqb c newline) eqn:Hc.
  - apply Ascii.eqb_eq in Hc as ->. rewrite getlines_cons_newline.
    cbn [unlines]. rewrite IH, append_nil_l.
    destruct rest as [|c' rest']; [reflexivity|].
    change (newline_terminated (String newline (String c' rest')))
      with (newline_terminated (String c' rest')).
    by destruct (newline_terminated (String c' rest')).
  - rewrite getlines_cons_other by assumption.
    destruct (getlines rest) as [|l ls] eqn:Hg.
    + apply getlines_nil in Hg as ->. cbn [newline_terminated unlines].
      rewrite Hc. by rewrite append_empty_r.
    + assert (rest ≠ EmptyString) as Hne by (intros ->; discriminate).
      destruct rest as [|c' rest']; [done|].
      change (newline_terminated (String c (String c' rest')))
        with (newline_terminated (String c' rest')).
      cbn [unlines] in *. rewrite append_cons, IH.
      by destruct (newline_terminated (String c' rest')).
Qed.

Lemma unlines_app (l1 l2 : list string) :
  unlines (l1 ++ l2) = unlines l1 ++ unlines l2.
Proof.
  induction l1 as [|l l1 IH]; [reflexivity|].
  cbn [unlines app]. by rewrite IH, !append_assoc.
Qed.

Lemma filter_all_kept (ls : list string) :
  Forall (λ l, lacks_include l = true) ls → List.filter lacks_include ls = ls.
Proof.
  induction 1 as [|l ls Hl Hls IH]; [reflexivity|].
  cbn [List.filter]. by rewrite Hl, IH.
Qed.

(** ** What the emission pass writes *)

Lemma kept_lines_no_newline fs (f l : string) :
  l ∈ kept_lines fs f → has_char newline l = false.
Proof.
  unfold kept_lines. destruct (read_file fs f) as [content|].
  - intros Hl. apply list_elem_of_In, filter_In in Hl as [Hl _].
    apply list_elem_of_In in Hl. by eapply getlines_no_newline.
  - intros Hl. by apply elem_of_nil in Hl.
Qed.

Lemma kept_lines_lack_include fs (f l : string) :
  l ∈ kept_lines fs f → lacks_include l = true.
Proof.
  unfold kept_lines. destruct (read_file fs f) as [content|].
  - intros Hl. by apply list_elem_of_In, filter_In in Hl as [_ Hl].
  - intros Hl. by apply elem_of_nil in Hl.
Qed.

Lemma file_chunk_kept fs (f : string) :
  file_chunk fs f = unlines (kept_lines fs f).
Proof.
  unfold file_chunk, kept_lines. destruct (read_file fs f); [|reflexivity].
  by rewrite emit_lines_filter, append_nil_l.
Qed.

Lemma chunks_unlines fs (includes : list string) :
  chunks fs includes = unlines (concat (kept_lines fs <$> includes)).
Proof.
  induction includes as [|f rest IH]; [reflexivity|].
  cbn [chunks foldr fmap list_fmap concat].
  rewrite unlines_app, <- IH. by rewrite file_chunk_kept.
Qed.

Lemma emit_files_state fs (includes : list string) out st :
  activeIncludes (emit_files fs includes out st).2 = activeIncludes st
  ∧ trace (emit_files fs includes out st).2
    = (rev (emission_event fs <$> includes) ++ trace st)%list.
Proof.
  revert out st. induction includes as [|f rest IH]; intros out st;
    [by split|].
  rewrite fmap_cons. cbn [emit_files rev]. unfold emission_event at 2.
  destruct (read_file fs f) as [content|].
  - destruct (IH (emit_lines (getlines content) out) (log (OpenRead f) st))
      as [Hm Ht].
    split; [exact Hm|]. rewrite Ht, <- app_assoc. reflexivity.
  - destruct (IH out (log (Cerr (CouldNotOpenInput f)) st)) as [Hm Ht].
    split; [exact Hm|]. rewrite Ht, <- app_assoc. reflexivity.
Qed.

Lemma emission_pass_facts fs (includes : list string) out st :
  (emit_files fs includes out st).1
  = out ++ unlines (concat (kept_lines fs <$> includes))
  ∧ activeIncludes (emit_files fs includes out st).2 = activeIncludes st
  ∧ trace (emit_files fs includes out st).2
    = (rev (emission_event fs <$> includes) ++ trace st)%list.
Proof.
  split; [|apply emit_files_state].
  by rewrite emit_files_chunks, chunks_unlines.
Qed.

(** X1. The emission pass writes, file after file in the order given,
    the lines it keeps, each followed by a line end; a file that does not
    open adds nothing to the output and one error to the diagnostics, and
    the files after it are still written. The pass logs one event per
    file and leaves the depth map as it was. *)
Theorem emission_pass fs (includes : list string) out st :
  (emit_files fs includes out st).1
  = out ++ unlines (concat (kept_lines fs <$> includes))
  ∧ activeIncludes (emit_files fs includes out st).2 = activeIncludes st
  ∧ trace (emit_files fs includes out st).2
    = (rev (emission_event fs <$> includes) ++ trace st)%list.
Proof. apply emission_pass_facts. Qed.

(** X2. Reading back what the emission wrote for a file gives exactly the
    lines it kept, so no line of it holds the text [#include], and
    emitting that text again changes nothing. *)
Theorem emission_idempotent (content : string) :
  let written := emit_lines (getlines content) "" in
  getlines written = List.filter lacks_include (getlines content)
  ∧ Forall (λ l, lacks_include l = true) (getlines written)
  ∧ emit_lines (getlines written) "" = written.
Proof.
  intros written. unfold written. rewrite emit_lines_filter, append_nil_l.
  assert (getlines (unlines (List.filter lacks_include (getlines content)))
          = List.filter lacks_include (getlines content)) as Hback.
  { apply getlines_unlines, Forall_forall. intros l Hl.
    apply list_elem_of_In, filter_In in Hl as [Hl _].
    apply list_elem_of_In in Hl. by eapply getlines_no_newline. }
  assert (Forall (λ l, lacks_include l = true)
            (List.filter lacks_include (getlines content))) as Hkept.
  { apply Forall_forall. intros l Hl.
    by apply list_elem_of_In, filter_In in Hl as [_ Hl]. }
  rewrite Hback. split; [reflexivity|]. split; [exact Hkept|].
  by rewrite emit_lines_filter, append_nil_l, filter_all_kept.
Qed.

(** X3. A file none of whose lines holds the text [#include] is copied
    as it is when it is empty or ends with a line feed; otherwise the
    copy is the file followed by one line feed. *)
Theorem emission_copies_verbatim (content out : string) :
  Forall (λ l, lacks_include l = true) (getlines content) →
  emit_lines (getlines content) out
  = out ++ (if newline_terminated content then content else content ++ endl).
Proof.
  intros Hall.
  by rewrite emit_lines_filter, filter_all_kept, unlines_getlines.
Qed.

Lemma emission_copies_verbatim_witness :
  emit_lines (getlines ("fn a() {}" ++ endl ++ "// end")) ""
  = "" ++ ("fn a() {}" ++ endl ++ "// end") ++ endl.
Proof.
  apply (emission_copies_verbatim ("fn a() {}" ++ endl ++ "// end") "").
  repeat constructor.
Defined.

(** ** Directive lines *)

Lemma find_char_skip (c : ascii) (p s : string) :
  find_char c (String.length p) (p ++ s)
  = option_map (λ i, String.length p + i) (find_char c 0 s).
Proof.
  induction p as [|a p IH].
  - rewrite append_nil_l. cbn [String.length]. by destruct (find_char c 0 s).
  - rewrite append_cons. cbn [String.length find_char]. rewrite IH.
    by destruct (find_char c 0 s).
Qed.

Lemma find_char_first (c : ascii) (name trailing : string) :
  has_char c name = false →
  find_char c 0 (name ++ String c trailing) = Some (String.length name).
Proof.
  induction name as [|a name IH]; intros Hn.
  - rewrite append_nil_l. cbn [find_char String.length].
    by rewrite Ascii.eqb_refl.
  - cbn [has_char] in Hn. apply orb_false_iff in Hn as [Ha Hn].
    rewrite append_cons. cbn [find_char String.length].
    by rewrite Ha, IH.
Qed.

Lemma substring_skip (p s : string) (m : nat) :
  substring (String.length p) m (p ++ s) = substring 0 m s.
Proof.
  induction p as [|a p IH]; [reflexivity|].
  rewrite append_cons. cbn [String.length substring]. exact IH.
Qed.

Lemma substring_prefix (name rest : string) :
  substring 0 (String.length name) (name ++ rest) = name.
Proof.
  induction name as [|a name IH]; [by destruct rest|].
  rewrite append_cons. cbn [String.length substring]. by rewrite IH.
Qed.

Lemma directive_line_fields (name trailing : string) :
  has_char dquote name = false →
  let line := include_directive_prefix ++ name ++ String dquote trailing in
  starts_with include_directive_prefix line = true
  ∧ find_char dquote start_quote_pos line
    = Some (start_quote_pos + String.length name)
  ∧ substring start_quote_pos
      (start_quote_pos + String.length name - start_quote_pos) line = name.
Proof.
  intros Hn line. split; [|split].
  - apply prefix_append. by eexists.
  - unfold line, start_quote_pos.
    by rewrite find_char_skip, find_char_first.
  - replace (start_quote_pos + String.length name - start_quote_pos)
      with (String.length name) by lia.
    unfold line, start_quote_pos.
    by rewrite substring_skip, substring_prefix.
Qed.

(** X4. A scanned line made of the directive prefix, a name without a
    double quote, a double quote and any further text is taken as an
    include of exactly that name: the text after the closing quote is
    ignored, the name is joined to the base directory and made canonical,
    and the file is visited one level deeper with its own parent
    directory as base. *)
Theorem directive_line_parsed fs visit (f b : string) (d : N)
    (name trailing : string) (rest : list string) (count : N) st :
  has_char dquote name = false → (count < 5)%N →
  scan_lines fs visit f b d
    ((include_directive_prefix ++ name ++ String dquote trailing) :: rest)
    count st
  = let ps := removeDot fs (path_join fs b name) st in
    match visit ps.1 (parent_path fs ps.1) ps.2 (uint32_succ d) with
    | None => None
    | Some (false, st2) => Some (false, erase f st2)
    | Some (true, st2) => scan_lines fs visit f b d rest 0%N st2
    end.
Proof.
  intros Hn Hc.
  destruct (directive_line_fields name trailing Hn) as (Hp & Hq & Hs).
  rewrite (scan_lines_directive fs visit f b d _ rest count st _ Hc Hp Hq).
  cbv zeta. by rewrite Hs.
Qed.

Lemma directive_line_parsed_witness :
  scan_lines chain_fs (findIncludes chain_fs 1) "a.wgsl" "" 0
    [include_directive_prefix ++ "b.wgsl" ++ String dquote " // utilities"]
    0 initial_state
  = Some (true,
          log (OpenRead "b.wgsl")
            (assign "b.wgsl" 1 (log (Call "b.wgsl" 1) initial_state))).
Proof.
  rewrite (directive_line_parsed chain_fs (findIncludes chain_fs 1)
             "a.wgsl" "" 0%N "b.wgsl" " // utilities" [] 0%N initial_state);
    reflexivity.
Defined.

Lemma prefix_has_include (line : string) :
  starts_with include_directive_prefix line = true →
  occurs_in "#include" line.
Proof.
  intros Hp. apply prefix_append in Hp as [after ->].
  exists "", (String " " (String dquote after)). reflexivity.
Qed.

(** X5. Every line that the scan takes for a directive, closed by a quote
    or not, is left out by the emission pass; so each line the emission
    writes is one the scan counted as holding no directive. *)
Theorem directive_lines_never_emitted (lines : list string) :
  (∀ line, starts_with include_directive_prefix line = true →
           lacks_include line = false)
  ∧ Forall is_plain (List.filter lacks_include lines).
Proof.
  assert (∀ line, starts_with include_directive_prefix line = true →
                  lacks_include line = false) as Hdrop.
  { intros line Hp. by apply lacks_include_spec, prefix_has_include. }
  split; [exact Hdrop|].
  apply Forall_forall. intros l Hl.
  apply list_elem_of_In, filter_In in Hl as [_ Hl]. unfold is_plain.
  destruct (starts_with include_directive_prefix l) eqn:Hp; [|reflexivity].
  apply Hdrop in Hp. congruence.
Qed.

(** X6. A line in which the text [#include] comes after a first
    character other than [#] (an indented directive, a commented one) is
    counted by the scan as holding no directive, so nothing is included
    for it, and yet the emission pass leaves the line out. *)
Theorem indented_include_lost (c : ascii) (rest : string) :
  c ≠ "#"%char → occurs_in "#include" rest →
  is_plain (String c rest) ∧ lacks_include (String c rest) = false.
Proof.
  intros Hc (before & after & ->). split.
  - unfold is_plain, starts_with.
    destruct (String.prefix include_directive_prefix _) eqn:Hp; [|reflexivity].
    apply prefix_append in Hp as [x Hx]. injection Hx as Hx _. by destruct Hc.
  - apply lacks_include_spec. by exists (String c before), after.
Qed.

Lemma indented_include_lost_witness :
  is_plain (String " " (directive "b.wgsl"))
  ∧ lacks_include (String " " (directive "b.wgsl")) = false.
Proof.
  apply (indented_include_lost " "%char (directive "b.wgsl")).
  - discriminate.
  - exists "", (String " " (String dquote ("b.wgsl" ++ String dquote ""))).
    reflexivity.
Defined.

(** ** Relating the states before and after any call that returns *)

Lemma revisit_check_trace (f : string) d st :
  trace (revisit_check f d st).2 = trace st.
Proof.
  unfold revisit_check. destruct (activeIncludes st !! f) as [d_old|];
    [destruct (d_old <? d)%N|]; reflexivity.
Qed.

Lemma revisit_check_other (f g : string) d st :
  g ≠ f →
  activeIncludes (revisit_check f d st).2 !! g = activeIncludes st !! g.
Proof.
  intros Hne. unfold revisit_check.
  destruct (activeIncludes st !! f) as [d_old|];
    [destruct (d_old <? d)%N|]; simpl; by rewrite ?lookup_insert_ne.
Qed.

Lemma revisit_check_own (f : string) d st :
  activeIncludes (revisit_check f d st).2 !! f = Some d
  ∨ (activeIncludes (revisit_check f d st).2 !! f = activeIncludes st !! f
     ∧ is_Some (activeIncludes st !! f)).
Proof.
  unfold revisit_check.
  destruct (activeIncludes st !! f) as [d_old|] eqn:Hf;
    [destruct (d_old <? d)%N|]; simpl; rewrite ?lookup_insert_eq; auto.
Qed.

Lemma revisit_check_returns (f : string) d st :
  (revisit_check f d st).1 = true → is_Some (activeIncludes st !! f).
Proof.
  unfold revisit_check. destruct (activeIncludes st !! f) as [d_old|];
    [by eexists|discriminate].
Qed.

Section WalkOutcome.

Context (fs : filesystem) (D : N → Prop)
  (R : walk_state → bool → walk_state → Prop).
Hypothesis D_succ : ∀ d, D d → D (uint32_succ d).
Hypothesis R_refl : ∀ st, R st true st.
Hypothesis R_trans :
  ∀ st1 st2 ok st3, R st1 true st2 → R st2 ok st3 → R st1 ok st3.
Hypothesis R_unwind : ∀ (f : string) st st2, R st false st2 → R st false (erase f st2).
Hypothesis R_malformed :
  ∀ (f line : string) st, R st true (log (Cerr (MalformedInclude f line)) st).
Hypothesis R_canonical :
  ∀ (p : string) st, R st true (log (Cerr (CanonicalIncluded p)) st).
Hypothesis R_return :
  ∀ (f : string) d st, D d →
    (revisit_check f d (log (Call f d) st)).1 = true →
    R st true (revisit_check f d (log (Call f d) st)).2.
Hypothesis R_opened :
  ∀ (f : string) d st, D d →
    (revisit_check f d (log (Call f d) st)).1 = false →
    R st true (log (OpenRead f) (revisit_check f d (log (Call f d) st)).2).
Hypothesis R_not_opened :
  ∀ (f : string) d st, D d →
    (revisit_check f d (log (Call f d) st)).1 = false →
    R st false
      (erase f (log (Cerr (CouldNotOpen f))
                  (revisit_check f d (log (Call f d) st)).2)).

Lemma scan_lines_outcome_rel (visit : visitor) (f b : string) d lines count
    st ok st' :
  (∀ p q s x ok' s', D x → visit p q s x = Some (ok', s') → R s ok' s') →
  D d →
  scan_lines fs visit f b d lines count st = Some (ok, st') → R st ok st'.
Proof.
  intros Hvisit Hd. revert count st.
  induction lines as [|line rest IH]; intros count st; simpl.
  - intros [= <- <-]. apply R_refl.
  - destruct (negb (count <? 5)%N); [intros [= <- <-]; apply R_refl|].
    destruct (starts_with include_directive_prefix line); [|apply IH].
    destruct (find_char dquote start_quote_pos line) as [e|].
    + assert (R st true
                (removeDot fs
                   (path_join fs b
                      (substring start_quote_pos (e - start_quote_pos) line))
                   st).2) as Hrd.
      { unfold removeDot. destruct (canonical fs _); simpl; auto. }
      destruct (removeDot fs _ st) as [p st1]. simpl in Hrd.
      destruct (visit p (parent_path fs p) st1 (uint32_succ d))
        as [[[] st2]|] eqn:Hv; [| |discriminate].
      * intros Hscan. eapply R_trans; [exact Hrd|].
        eapply R_trans; [eapply Hvisit; [|exact Hv]; auto|]. by eapply IH.
      * intros [= <- <-]. eapply R_trans; [exact Hrd|].
        apply R_unwind. eapply Hvisit; [|exact Hv]. auto.
    + intros Hscan. eapply R_trans; [apply R_malformed|]. by eapply IH.
Qed.

Lemma findIncludes_outcome_rel fuel (f b : string) st d ok st' :
  D d → findIncludes fs fuel f b st d = Some (ok, st') → R st ok st'.
Proof.
  revert f b st d ok st'.
  induction fuel as [|fuel IH]; intros f b st d ok st' Hd; simpl;
    [discriminate|].
  pose proof (R_return f d st Hd) as Hret.
  pose proof (R_opened f d st Hd) as Hop.
  pose proof (R_not_opened f d st Hd) as Hno.
  destruct (revisit_check f d (log (Call f d) st)) as [[] st1];
    simpl in Hret, Hop, Hno.
  - intros [= <- <-]. by apply Hret.
  - unfold open_and_scan. destruct (read_file fs f).
    + intros Hscan. eapply R_trans; [by apply Hop|].
      eapply scan_lines_outcome_rel; [|exact Hd|exact Hscan].
      intros p q w x ok' w' Hx Hv. by eapply IH.
    + intros [= <- <-]. by apply Hno.
Qed.

End WalkOutcome.

(** ** Outcomes of the walk *)

(** X7. A call that returns has reported exactly one file as impossible
    to open when it returns failure, and none when it returns success:
    the walk stops at the first file that does not open, and it fails for
    no other reason. *)
Theorem walk_fails_on_first_open_error fs fuel (f b : string) st d ok st' :
  findIncludes fs fuel f b st d = Some (ok, st') →
  open_errors (trace st')
  = open_errors (trace st) + (if ok then 0 else 1).
Proof.
  intros Hwalk.
  refine (findIncludes_outcome_rel fs (λ _, True)
    (λ s ok' s', open_errors (trace s')
                 = open_errors (trace s) + (if ok' then 0 else 1))
    _ _ _ _ _ _ _ _ _ fuel f b st d ok st' I Hwalk).
  - done.
  - intros s. lia.
  - intros s1 s2 ok' s3 H12 H23. rewrite H23, H12. lia.
  - intros g s s2 H. exact H.
  - intros g line s. simpl. lia.
  - intros p s. simpl. lia.
  - intros g x s _ _. rewrite revisit_check_trace. simpl. lia.
  - intros g x s _ _. simpl. rewrite revisit_check_trace. simpl. lia.
  - intros g x s _ _. simpl. rewrite revisit_check_trace. simpl. lia.
Qed.

Lemma walk_fails_on_first_open_error_witness :
  ∃ st', findIncludes missing_fs 3 "a.wgsl" "" initial_state 0
         = Some (false, st')
         ∧ open_errors (trace st') = 1.
Proof.
  destruct (findIncludes missing_fs 3 "a.wgsl" "" initial_state 0)
    as [[[] st']|] eqn:Hw; [vm_compute in Hw; discriminate| |
                            vm_compute in Hw; discriminate].
  exists st'. split; [reflexivity|].
  apply (walk_fails_on_first_open_error _ _ _ _ _ _ _ _ Hw).
Defined.

Lemma recorded_were_opened_log e st :
  recorded_were_opened st → recorded_were_opened (log e st).
Proof. intros Hinv g Hg. apply list_elem_of_further. by apply Hinv. Qed.

Lemma recorded_were_opened_erase (f : string) st :
  recorded_were_opened st → recorded_were_opened (erase f st).
Proof.
  intros Hinv g Hg. simpl in Hg.
  destruct (decide (f = g)) as [->|Hne].
  - rewrite lookup_delete_eq in Hg. by destruct Hg.
  - rewrite lookup_delete_ne in Hg by done. by apply Hinv.
Qed.

Lemma recorded_were_opened_enter (f g : string) d st :
  recorded_were_opened st → g ≠ f →
  is_Some (activeIncludes (revisit_check f d (log (Call f d) st)).2 !! g) →
  OpenRead g ∈ trace st.
Proof.
  intros Hinv Hne Hg. rewrite revisit_check_other in Hg by done.
  by apply Hinv.
Qed.

(** X8. When every recorded file has been opened by the walk, the same
    holds after any call that returns, with success or with failure:
    from the empty map on, the emission pass is only ever given files
    that the walk itself has opened. *)
Theorem recorded_files_were_opened fs fuel (f b : string) st d ok st' :
  recorded_were_opened st →
  findIncludes fs fuel f b st d = Some (ok, st') →
  recorded_were_opened st'.
Proof.
  intros Hinv Hwalk. revert Hinv.
  refine (findIncludes_outcome_rel fs (λ _, True)
    (λ s _ s', recorded_were_opened s → recorded_were_opened s')
    _ _ _ _ _ _ _ _ _ fuel f b st d ok st' I Hwalk).
  - done.
  - done.
  - auto.
  - intros g s s2 H Hs. by apply recorded_were_opened_erase, H.
  - intros g line s. apply recorded_were_opened_log.
  - intros p s. apply recorded_were_opened_log.
  - intros g x s _ Hret Hs h Hh.
    rewrite revisit_check_trace. apply list_elem_of_further.
    destruct (decide (h = g)) as [->|Hne].
    + apply Hs. by apply revisit_check_returns in Hret.
    + by eapply recorded_were_opened_enter.
  - intros g x s _ _ Hs h Hh. simpl in Hh.
    destruct (decide (h = g)) as [->|Hne]; [apply list_elem_of_here|].
    apply list_elem_of_further. rewrite revisit_check_trace.
    apply list_elem_of_further. by eapply recorded_were_opened_enter.
  - intros g x s _ _ Hs h Hh. simpl in Hh.
    destruct (decide (g = h)) as [->|Hne].
    + rewrite lookup_delete_eq in Hh. by destruct Hh.
    + rewrite lookup_delete_ne in Hh by done. simpl.
      apply list_elem_of_further. rewrite revisit_check_trace.
      apply list_elem_of_further. by eapply recorded_were_opened_enter.
Qed.

Lemma recorded_files_were_opened_witness :
  ∃ st', findIncludes missing_fs 3 "a.wgsl" "" initial_state 0
         = Some (false, st')
         ∧ recorded_were_opened st'.
Proof.
  destruct (findIncludes missing_fs 3 "a.wgsl" "" initial_state 0)
    as [[[] st']|] eqn:Hw; [vm_compute in Hw; discriminate| |
                            vm_compute in Hw; discriminate].
  exists st'. split; [reflexivity|].
  apply (recorded_files_were_opened missing_fs 3 "a.wgsl" "" initial_state
           0%N false st'); [|exact Hw].
  intros g Hg. simpl in Hg. rewrite lookup_empty in Hg. by destruct Hg.
Defined.

(** X9. A call that returns leaves its own file recorded exactly when it
    returns success, and then at a depth no smaller than the depth of the
    call; so the file on which a walk was started is handed to the
    emission pass if and only if the walk succeeded. *)
Theorem own_file_recorded_iff_success fs srt fuel (f b : string) st d ok st' :
  findIncludes fs fuel f b st d = Some (ok, st') →
  (if ok then ∃ r, activeIncludes st' !! f = Some r ∧ (d ≤ r)%N
   else activeIncludes st' !! f = None)
  ∧ (f ∈ convertActiveIncludesToVector srt (activeIncludes st') ↔ ok = true).
Proof.
  intros Hwalk. rewrite convert_elem_of. destruct ok.
  - destruct (findIncludes_records _ _ _ _ _ _ _ Hwalk) as (r & Hr & Hle).
    split; [by exists r|]. rewrite Hr. split; [done|by eexists].
  - rewrite (findIncludes_failure _ _ _ _ _ _ _ Hwalk).
    split; [reflexivity|]. split; [by intros [? [=]]|discriminate].
Qed.

Lemma own_file_recorded_iff_success_witness :
  ∃ st', findIncludes missing_fs 3 "a.wgsl" "" initial_state 0
         = Some (false, st')
         ∧ "a.wgsl" ∉ convertActiveIncludesToVector merge_std_sort
                        (activeIncludes st').
Proof.
  destruct (findIncludes missing_fs 3 "a.wgsl" "" initial_state 0)
    as [[[] st']|] eqn:Hw; [vm_compute in Hw; discriminate| |
                            vm_compute in Hw; discriminate].
  exists st'. split; [reflexivity|].
  destruct (own_file_recorded_iff_success _ merge_std_sort _ _ _ _ _ _ _ Hw)
    as [_ Hiff].
  intros Hin. apply Hiff in Hin. discriminate.
Defined.

(** ** What [main] returns *)

Lemma main_cases fs srt fuel (argv : list string) r :
  main fs srt fuel argv = Some r →
  (exit_code r = 1%Z ∧ output r = "" ∧ destination r = None)
  ∨ (exit_code r = 0%Z
     ∧ ∃ (root : string) ok st,
         canonical fs (root_argument fs argv) = Some root
         ∧ findIncludes fs fuel root (parent_path fs root) initial_state 0
           = Some (ok, st)
         ∧ (output r, final_state r)
           = emit_files fs
               (convertActiveIncludesToVector srt (activeIncludes st)) ""
               (if ok then st else log (Cerr FindIncludesFailed) st)
         ∧ destination r
           = if (length argv =? 3)%nat then Some (nth 2 argv "") else None).
Proof.
  unfold main, root_argument.
  destruct ((length argv <? 2)%nat || (3 <? length argv)%nat);
    [intros [= <-]; by left|].
  destruct (canonical fs _) as [root|] eqn:Hcan; [|intros [= <-]; by left].
  destruct (findIncludes fs fuel root (parent_path fs root) initial_state 0)
    as [[ok st]|] eqn:Hwalk; [|discriminate].
  destruct ((length argv =? 3)%nat && negb (open_write fs (nth 2 argv "")));
    [intros [= <-]; by left|].
  destruct (emit_files fs _ "" _) as [out st2] eqn:Hemit.
  intros [= <-]. right. split; [reflexivity|].
  exists root, ok, st. split; [reflexivity|]. split; [exact Hwalk|].
  split; [|reflexivity]. simpl. rewrite <- Hemit. by destruct ok.
Qed.

(** X10. When [main] is run with two arguments, so that it writes to the
    standard output and opens no file for writing, and returns 0, what it
    wrote is the kept lines of the files recorded by the walk, file after
    file in the emission order, and the depth map is the one the walk
    left. *)
Theorem main_writes_recorded_files fs srt fuel (argv : list string) r :
  length argv = 2 →
  main fs srt fuel argv = Some r → exit_code r = 0%Z →
  ∃ (root : string) ok st,
    canonical fs (root_argument fs argv) = Some root
    ∧ findIncludes fs fuel root (parent_path fs root) initial_state 0
      = Some (ok, st)
    ∧ output r
      = unlines (concat (kept_lines fs <$>
                           convertActiveIncludesToVector srt (activeIncludes st)))
    ∧ activeIncludes (final_state r) = activeIncludes st
    ∧ destination r = None.
Proof.
  intros Hlen Hm He.
  destruct (main_cases _ _ _ _ _ Hm)
    as [[H1 _]|(_ & root & ok & st & Hcan & Hwalk & Hemit & Hdest)];
    [congruence|].
  exists root, ok, st. split; [assumption|]. split; [assumption|].
  destruct (emission_pass_facts fs
              (convertActiveIncludesToVector srt (activeIncludes st)) ""
              (if ok then st else log (Cerr FindIncludesFailed) st))
    as (Hout & Hmap & _).
  rewrite <- Hemit in Hout, Hmap. simpl in Hout, Hmap.
  rewrite append_nil_l in Hout.
  split; [assumption|]. split.
  - rewrite Hmap. by destruct ok.
  - rewrite Hdest, Hlen. reflexivity.
Qed.

Lemma main_writes_recorded_files_witness :
  ∃ r, main chain_fs merge_std_sort 3 ["wgslPreprocessor"; "a.wgsl"] = Some r
       ∧ output r = unlines ["fn b() {}"; "fn a() {}"].
Proof.
  destruct (main chain_fs merge_std_sort 3 ["wgslPreprocessor"; "a.wgsl"])
    as [r|] eqn:Hm; [|vm_compute in Hm; discriminate].
  exists r. split; [reflexivity|].
  assert (exit_code r = 0%Z) as He.
  { vm_compute in Hm. by injection Hm as <-. }
  destruct (main_writes_recorded_files chain_fs merge_std_sort 3
              ["wgslPreprocessor"; "a.wgsl"] r eq_refl Hm He)
    as (root & ok & st & Hcan & Hwalk & Hout & _).
  vm_compute in Hcan. injection Hcan as <-.
  vm_compute in Hwalk. injection Hwalk as <- <-.
  rewrite Hout. vm_compute. reflexivity.
Defined.

Lemma kept_concat_lines fs (includes : list string) (l : string) :
  l ∈ concat (kept_lines fs <$> includes) →
  has_char newline l = false ∧ lacks_include l = true.
Proof.
  intros Hl. apply list_elem_of_In, in_concat in Hl as (ls & Hls & Hl).
  apply list_elem_of_In, list_elem_of_fmap in Hls as (f & -> & _).
  apply list_elem_of_In in Hl. split.
  - by eapply kept_lines_no_newline.
  - by eapply kept_lines_lack_include.
Qed.

(** X11. Whatever [main] returns, no line of the text it wrote holds
    [#include]. *)
Theorem output_has_no_include fs srt fuel (argv : list string) r :
  main fs srt fuel argv = Some r →
  Forall (λ l, lacks_include l = true) (getlines (output r)).
Proof.
  intros Hm.
  destruct (main_cases _ _ _ _ _ Hm)
    as [(_ & -> & _)|(_ & root & ok & st & _ & _ & Hemit & _)];
    [constructor|].
  destruct (emission_pass_facts fs
              (convertActiveIncludesToVector srt (activeIncludes st)) ""
              (if ok then st else log (Cerr FindIncludesFailed) st))
    as (Hout & _ & _).
  rewrite <- Hemit in Hout. simpl in Hout. rewrite append_nil_l in Hout.
  rewrite Hout, getlines_unlines.
  - apply Forall_forall. intros l Hl. by eapply kept_concat_lines.
  - apply Forall_forall. intros l Hl. by eapply kept_concat_lines.
Qed.

Lemma output_has_no_include_witness :
  ∃ r, main chain_fs merge_std_sort 3 ["wgslPreprocessor"; "a.wgsl"] = Some r
       ∧ Forall (λ l, lacks_include l = true) (getlines (output r)).
Proof.
  destruct (main chain_fs merge_std_sort 3 ["wgslPreprocessor"; "a.wgsl"])
    as [r|] eqn:Hm; [|vm_compute in Hm; discriminate].
  exists r. split; [reflexivity|].
  apply (output_has_no_include chain_fs merge_std_sort 3
           ["wgslPreprocessor"; "a.wgsl"] r Hm).
Defined.

(** X12. With fewer than two or more than three arguments, or with a
    root path that cannot be made canonical, [main] returns 1 whatever
    the bound on the walk: no file has been opened, nothing is recorded
    and nothing is written. *)
Theorem main_rejects_before_reading fs srt fuel (argv : list string) :
  length argv < 2 ∨ 3 < length argv
  ∨ canonical fs (root_argument fs argv) = None →
  ∃ r, main fs srt fuel argv = Some r
       ∧ exit_code r = 1%Z
       ∧ output r = ""
       ∧ activeIncludes (final_state r) = ∅
       ∧ ∀ f, OpenRead f ∉ trace (final_state r).
Proof.
  intros Hbad. unfold main. fold (root_argument fs argv).
  destruct ((length argv <? 2)%nat || (3 <? length argv)%nat) eqn:Hargc.
  - eexists. split; [reflexivity|]. repeat split.
    intros f Hf. simpl in Hf. apply list_elem_of_singleton in Hf. discriminate.
  - apply orb_false_iff in Hargc. rewrite !Nat.ltb_ge in Hargc.
    destruct Hbad as [?|[?|Hcan]]; [lia|lia|]. rewrite Hcan.
    eexists. split; [reflexivity|]. repeat split.
    intros f Hf. simpl in Hf. apply list_elem_of_singleton in Hf. discriminate.
Qed.

Lemma main_rejects_before_reading_witness :
  ∃ r, main chain_fs merge_std_sort 0 ["wgslPreprocessor"; "nowhere.wgsl"]
       = Some r
       ∧ exit_code r = 1%Z
       ∧ output r = ""
       ∧ activeIncludes (final_state r) = ∅
       ∧ ∀ f, OpenRead f ∉ trace (final_state r).
Proof.
  apply (main_rejects_before_reading chain_fs merge_std_sort 0
           ["wgslPreprocessor"; "nowhere.wgsl"]).
  right. right. reflexivity.
Defined.

(** X13. A root that can be made canonical and yet does not open makes
    the walk fail at once: with two arguments, or an output file that
    opens, [main] reports both errors, writes nothing and returns 0. *)
Theorem unreadable_root_gives_empty_output fs srt fuel (argv : list string)
    (root : string) :
  (2 ≤ length argv ∧ length argv ≤ 3)%nat →
  canonical fs (root_argument fs argv) = Some root →
  read_file fs root = None →
  ¬ (length argv = 3 ∧ open_write fs (nth 2 argv "") = false) →
  ∃ r, main fs srt (S fuel) argv = Some r
       ∧ exit_code r = 0%Z
       ∧ output r = ""
       ∧ activeIncludes (final_state r) = ∅
       ∧ trace (final_state r)
         = [Cerr FindIncludesFailed; Cerr (CouldNotOpen root); Call root 0].
Proof.
  intros [Hlo Hhi] Hcan Hread Hout. unfold main. fold (root_argument fs argv).
  assert ((length argv <? 2)%nat || (3 <? length argv)%nat = false) as ->.
  { apply orb_false_iff. rewrite !Nat.ltb_ge. lia. }
  rewrite Hcan, findIncludes_fresh by apply lookup_empty.
  unfold open_and_scan. rewrite Hread.
  assert ((length argv =? 3)%nat && negb (open_write fs (nth 2 argv ""))
          = false) as ->.
  { destruct (length argv =? 3)%nat eqn:Hl; [|reflexivity].
    apply Nat.eqb_eq in Hl.
    destruct (open_write fs (nth 2 argv "")) eqn:Hw; [reflexivity|].
    by destruct Hout. }
  set (st := erase root _).
  assert (activeIncludes st = ∅) as Hempty.
  { unfold st. simpl. by rewrite insert_empty, delete_singleton_eq. }
  cbv zeta.
  change (activeIncludes (log (Cerr FindIncludesFailed) st))
    with (activeIncludes st).
  rewrite Hempty, convert_empty. cbn [emit_files].
  eexists. split; [reflexivity|]. repeat split. exact Hempty.
Qed.

Lemma unreadable_root_gives_empty_output_witness :
  ∃ r, main unreadable_fs merge_std_sort 1 ["wgslPreprocessor"; "a.wgsl"]
       = Some r
       ∧ exit_code r = 0%Z
       ∧ output r = ""
       ∧ activeIncludes (final_state r) = ∅
       ∧ trace (final_state r)
         = [Cerr FindIncludesFailed; Cerr (CouldNotOpen "a.wgsl");
            Call "a.wgsl" 0].
Proof.
  apply (unreadable_root_gives_empty_output unreadable_fs merge_std_sort 0
           ["wgslPreprocessor"; "a.wgsl"] "a.wgsl").
  - simpl. lia.
  - reflexivity.
  - reflexivity.
  - intros [Hl _]. discriminate.
Defined.

(** ** The bound on nested calls *)

Lemma scan_lines_visit_mono fs (visit1 visit2 : visitor) (f b : string) d
    lines count st r :
  (∀ p q s x r', visit1 p q s x = Some r' → visit2 p q s x = Some r') →
  scan_lines fs visit1 f b d lines count st = Some r →
  scan_lines fs visit2 f b d lines count st = Some r.
Proof.
  intros Hvisit. revert count st.
  induction lines as [|line rest IH]; intros count st; simpl; [done|].
  destruct (negb (count <? 5)%N); [done|].
  destruct (starts_with include_directive_prefix line); [|apply IH].
  destruct (find_char dquote start_quote_pos line) as [e|]; [|apply IH].
  destruct (removeDot fs _ st) as [p st1].
  destruct (visit1 p (parent_path fs p) st1 (uint32_succ d))
    as [[[] st2]|] eqn:Hv; [| |discriminate];
    apply Hvisit in Hv; rewrite Hv; [apply IH|done].
Qed.

Lemma findIncludes_fuel_mono fs n m (f b : string) st d r :
  findIncludes fs n f b st d = Some r → (n ≤ m)%nat →
  findIncludes fs m f b st d = Some r.
Proof.
  revert m f b st d r.
  induction n as [|n IH]; intros m f b st d r; [discriminate|].
  intros Hn Hle. destruct m as [|m]; [lia|].
  simpl in *. destruct (revisit_check f d (log (Call f d) st)) as [[] st1];
    [assumption|].
  unfold open_and_scan in *. destruct (read_file fs f); [|assumption].
  eapply scan_lines_visit_mono; [|exact Hn].
  intros p q w x r' Hv. apply IH; [assumption|lia].
Qed.

(** ** Files with at most one include *)

Lemma scan_no_includes fs visit (f b : string) d lines count st :
  window_includes lines count = [] →
  ∃ st', scan_lines fs visit f b d lines count st = Some (true, st').
Proof.
  revert count st.
  induction lines as [|line rest IH]; intros count st; simpl; [by eexists|].
  destruct (negb (count <? 5)%N); [by eexists|].
  destruct (starts_with include_directive_prefix line); [|apply IH].
  destruct (find_char dquote start_quote_pos line); [discriminate|apply IH].
Qed.

Lemma scan_single fs visit (f b : string) d lines count st :
  (length (window_includes lines count) ≤ 1)%nat →
  (∀ name st1, name ∈ window_includes lines count →
     activeIncludes st1 = activeIncludes st →
     is_Some (visit (resolve fs b name) (parent_path fs (resolve fs b name))
                st1 (uint32_succ d))) →
  is_Some (scan_lines fs visit f b d lines count st).
Proof.
  revert count st.
  induction lines as [|line rest IH]; intros count st; simpl; [by eexists|].
  destruct (negb (count <? 5)%N); [by eexists|].
  destruct (starts_with include_directive_prefix line); [|apply IH].
  destruct (find_char dquote start_quote_pos line) as [e|].
  - set (name := substring start_quote_pos (e - start_quote_pos) line).
    intros Hlen Hvisit.
    pose proof (resolve_removeDot fs (path_join fs b name) st) as Hp.
    pose proof (removeDot_map fs (path_join fs b name) st) as Hm.
    destruct (removeDot fs _ st) as [p st1]. simpl in Hp, Hm.
    fold (resolve fs b name) in Hp. subst p.
    destruct (Hvisit name st1) as [[[] st2] ->];
      [apply list_elem_of_here|assumption| |by eexists].
    destruct (scan_no_includes fs visit f b d rest 0%N st2) as [st3 ->];
      [|by eexists].
    simpl in Hlen. destruct (window_includes rest 0); [reflexivity|].
    simpl in Hlen. lia.
  - intros Hlen Hvisit.
    apply (IH count (log (Cerr (MalformedInclude f line)) st) Hlen Hvisit).
Qed.

Lemma unrecorded_insert_le (files : list string) (m : gmap string N)
    (f : string) d :
  (length (unrecorded files (<[f := d]> m)) ≤ length (unrecorded files m))%nat.
Proof.
  induction files as [|g files IH]; [done|].
  unfold unrecorded in *. cbn [List.filter].
  destruct (decide (f = g)) as [->|Hne].
  - rewrite lookup_insert_eq. destruct (m !! g); cbn [length]; lia.
  - rewrite lookup_insert_ne by done. destruct (m !! g); cbn [length]; lia.
Qed.

Lemma unrecorded_insert_lt (files : list string) (m : gmap string N)
    (f : string) d :
  f ∈ files → m !! f = None →
  length (unrecorded files (<[f := d]> m)) < length (unrecorded files m).
Proof.
  intros Hin Hf. induction files as [|g files IH]; [by apply elem_of_nil in Hin|].
  pose proof (unrecorded_insert_le files m f d) as Hle.
  unfold unrecorded in *. cbn [List.filter].
  destruct (decide (f = g)) as [->|Hne].
  - rewrite lookup_insert_eq, Hf. cbn [length]. lia.
  - rewrite lookup_insert_ne by done.
    apply elem_of_cons in Hin as [?|Hin]; [done|]. specialize (IH Hin).
    destruct (m !! g); cbn [length]; lia.
Qed.

Section SingleInclude.

Context (fs : filesystem) (files : list string).
Hypothesis files_closed :
  ∀ f g, f ∈ files → g ∈ includes_of fs f → g ∈ files.
Hypothesis one_include :
  ∀ f, f ∈ files → (length (includes_of fs f) ≤ 1)%nat.
Hypothesis files_fit : (N.of_nat (length files) < 4294967296)%N.

Lemma single_include_call n u (f : string) d st :
  f ∈ files →
  (∀ g x, activeIncludes st !! g = Some x → (x < d)%N) →
  (length (unrecorded files (activeIncludes st)) ≤ u)%nat →
  (d + N.of_nat u ≤ N.of_nat (length files))%N →
  u < n →
  is_Some (findIncludes fs n f (parent_path fs f) st d).
Proof.
  revert u f d st.
  induction n as [|n IH]; intros u f d st Hf Hlow Hu Hsum Hn; [lia|].
  simpl. unfold revisit_check. simpl.
  destruct (activeIncludes st !! f) as [x|] eqn:Hlook.
  { apply Hlow in Hlook. apply N.ltb_lt in Hlook. rewrite Hlook. by eexists. }
  unfold open_and_scan.
  pose proof (one_include f Hf) as Hone.
  pose proof (files_closed f) as Hclosed.
  unfold includes_of in Hone, Hclosed.
  destruct (read_file fs f) as [content|]; [|by eexists].
  rewrite length_fmap in Hone.
  pose proof (unrecorded_insert_lt files (activeIncludes st) f d Hf Hlook)
    as Hless.
  assert (uint32_succ d = (d + 1)%N) as Hsucc.
  { unfold uint32_succ. apply N.mod_small. lia. }
  apply scan_single; [exact Hone|].
  intros name st1 Hname Hmap. apply (IH (u - 1)).
  - apply Hclosed; [assumption|]. apply list_elem_of_fmap. by exists name.
  - intros g x Hg. rewrite Hmap in Hg. simpl in Hg. rewrite Hsucc.
    destruct (decide (f = g)) as [->|Hne].
    + rewrite lookup_insert_eq in Hg. injection Hg as <-. lia.
    + rewrite lookup_insert_ne in Hg by done. apply Hlow in Hg. lia.
  - rewrite Hmap. simpl. lia.
  - rewrite Hsucc. lia.
  - lia.
Qed.

End SingleInclude.

(** X15. When every file of a finite set closed under inclusion holds at
    most one include inside its scan window, a walk started on one of
    them returns, whether the includes form a chain or close into a
    cycle and whether the files open or not: a bound on nested calls
    above the number of files is enough. *)
Theorem single_include_walk_returns fs (files : list string) (root : string)
    fuel :
  (∀ f g, f ∈ files → g ∈ includes_of fs f → g ∈ files) →
  (∀ f, f ∈ files → (length (includes_of fs f) ≤ 1)%nat) →
  (N.of_nat (length files) < 4294967296)%N →
  root ∈ files → length files < fuel →
  is_Some (findIncludes fs fuel root (parent_path fs root) initial_state 0).
Proof.
  intros Hclosed Hone Hfit Hroot Hfuel.
  apply (single_include_call fs files Hclosed Hone Hfit fuel (length files));
    [assumption| | |lia|assumption].
  - intros g x Hg. simpl in Hg. by rewrite lookup_empty in Hg.
  - unfold unrecorded. apply filter_length_le.
Qed.

Lemma cycle_includes (f : string) :
  f ∈ ["a.wgsl"; "b.wgsl"] →
  (f = "a.wgsl" ∧ includes_of cycle_fs f = ["b.wgsl"])
  ∨ (f = "b.wgsl" ∧ includes_of cycle_fs f = ["a.wgsl"]).
Proof.
  intros Hf. apply elem_of_cons in Hf as [->|Hf]; [left; by split|].
  apply list_elem_of_singleton in Hf as ->. right. by split.
Qed.

Lemma single_include_walk_returns_witness :
  is_Some (findIncludes cycle_fs 3 "a.wgsl" (parent_path cycle_fs "a.wgsl")
             initial_state 0).
Proof.
  apply (single_include_walk_returns cycle_fs ["a.wgsl"; "b.wgsl"] "a.wgsl" 3).
  - intros f g Hf Hg.
    destruct (cycle_includes f Hf) as [[_ Hi]|[_ Hi]]; rewrite Hi in Hg;
      apply list_elem_of_singleton in Hg as ->.
    + apply list_elem_of_further, list_elem_of_here.
    + apply list_elem_of_here.
  - intros f Hf.
    destruct (cycle_includes f Hf) as [[_ Hi]|[_ Hi]]; rewrite Hi; simpl; lia.
  - simpl. lia.
  - apply list_elem_of_here.
  - simpl. lia.
Defined.

(** ** The root of an acyclic graph *)

Lemma root_on_top_log root e tr :
  (∀ g x, e ≠ Call g x) → root_on_top root tr → root_on_top root (e :: tr).
Proof.
  intros He Htr g x Hin. apply elem_of_cons in Hin as [Heq|Hin]; [|by apply Htr].
  symmetry in Heq. by apply He in Heq.
Qed.

Lemma convert_index_order srt (m : gmap string N) i j (f g : string) df dg :
  convertActiveIncludesToVector srt m !! i = Some f →
  convertActiveIncludesToVector srt m !! j = Some g →
  m !! f = Some df → m !! g = Some dg → (dg < df)%N → i < j.
Proof.
  intros Hi Hj Hf Hg Hlt.
  unfold convertActiveIncludesToVector in Hi, Hj.
  apply list_lookup_fmap_Some in Hi as (p & -> & Hp).
  apply list_lookup_fmap_Some in Hj as (q & -> & Hq).
  pose proof (sorted_pair_recorded _ _ _ _ Hp) as Hp'.
  pose proof (sorted_pair_recorded _ _ _ _ Hq) as Hq'.
  rewrite Hf in Hp'. rewrite Hg in Hq'.
  injection Hp' as Hp'. injection Hq' as Hq'.
  destruct (decide (i < j)) as [|Hge]; [assumption|exfalso].
  destruct (decide (i = j)) as [->|Hne].
  - rewrite Hp in Hq. injection Hq as ->. lia.
  - pose proof (StronglySorted_lookup_lt not_before _ j i q p
                  (sort_sorted srt _) Hq Hp ltac:(lia)) as Hnb.
    unfold not_before, depth_greater in Hnb. apply N.ltb_ge in Hnb. lia.
Qed.

Section AcyclicRoot.

Context (fs : filesystem) (root : string) (rank : string → nat).
Hypothesis rank_decreases :
  ∀ f g, reachable fs root f → g ∈ includes_of fs f → rank g < rank f.
Hypothesis rank_fits : (N.of_nat (rank root) < 4294967296)%N.

(** A call the walk from the root can make. *)
Let good_call (f : string) (d : N) : Prop :=
  reachable fs root f
  ∧ (d + N.of_nat (rank f) ≤ N.of_nat (rank root))%N
  ∧ ((f = root ∧ d = 0%N) ∨ (f ≠ root ∧ (1 ≤ d)%N)).

Lemma good_call_child (f g : string) d :
  good_call f d → g ∈ includes_of fs f → good_call g (uint32_succ d).
Proof.
  intros (Hreach & Hsum & _) Hg.
  pose proof (rank_decreases f g Hreach Hg) as Hlt.
  assert (uint32_succ d = (d + 1)%N) as ->.
  { unfold uint32_succ. apply N.mod_small. lia. }
  split; [by eapply reachable_step|]. split; [lia|].
  right. split; [|lia]. intros ->. lia.
Qed.

Lemma scan_lines_root_on_top (visit : visitor) (f : string) d lines count
    st ok st' :
  (∀ g s x ok' s', good_call g x → root_on_top root (trace s) →
     visit g (parent_path fs g) s x = Some (ok', s') →
     root_on_top root (trace s')) →
  (∀ name, name ∈ window_includes lines count →
     good_call (resolve fs (parent_path fs f) name) (uint32_succ d)) →
  root_on_top root (trace st) →
  scan_lines fs visit f (parent_path fs f) d lines count st = Some (ok, st') →
  root_on_top root (trace st').
Proof.
  intros Hvisit. revert count st.
  induction lines as [|line rest IH]; intros count st Hnames Htop; simpl.
  { by intros [= _ <-]. }
  simpl in Hnames.
  destruct (negb (count <? 5)%N); [by intros [= _ <-]|].
  destruct (starts_with include_directive_prefix line); [|by apply IH].
  destruct (find_char dquote start_quote_pos line) as [e|].
  - set (name := substring start_quote_pos (e - start_quote_pos) line) in *.
    pose proof (resolve_removeDot fs (path_join fs (parent_path fs f) name) st)
      as Hp.
    assert (root_on_top root
              (trace (removeDot fs (path_join fs (parent_path fs f) name) st).2))
      as Htop1.
    { unfold removeDot. destruct (canonical fs _); [assumption|].
      simpl. by apply root_on_top_log. }
    destruct (removeDot fs _ st) as [p st1]. simpl in Hp, Htop1.
    fold (resolve fs (parent_path fs f) name) in Hp. subst p.
    pose proof (Hnames name ltac:(apply list_elem_of_here)) as Hgood.
    destruct (visit _ _ st1 (uint32_succ d)) as [[[] st2]|] eqn:Hv;
      [| |discriminate].
    + apply IH.
      * intros n' Hn'. apply Hnames. by apply list_elem_of_further.
      * by eapply Hvisit.
    + intros [= _ <-]. simpl. by eapply Hvisit.
  - apply IH; [assumption|]. simpl. by apply root_on_top_log.
Qed.

Lemma findIncludes_root_on_top n (f : string) d st ok st' :
  good_call f d → root_on_top root (trace st) →
  findIncludes fs n f (parent_path fs f) st d = Some (ok, st') →
  root_on_top root (trace st').
Proof.
  revert f d st ok st'.
  induction n as [|n IH]; intros f d st ok st' Hgood Htop; simpl;
    [discriminate|].
  assert (root_on_top root (trace (revisit_check f d (log (Call f d) st)).2))
    as Htop1.
  { rewrite revisit_check_trace. simpl. intros g x Hin.
    apply elem_of_cons in Hin as [[= -> ->]|Hin]; [|by apply Htop].
    by destruct Hgood as (_ & _ & ?). }
  destruct (revisit_check f d (log (Call f d) st)) as [[] st1];
    simpl in Htop1; [by intros [= _ <-]|].
  unfold open_and_scan.
  destruct (read_file fs f) as [content|] eqn:Hcontent.
  - apply (scan_lines_root_on_top (findIncludes fs n)).
    + intros g s x ok' s'. apply IH.
    + intros name Hn. apply (good_call_child f); [assumption|].
      unfold includes_of. rewrite Hcontent.
      apply list_elem_of_fmap. by exists name.
    + simpl. by apply root_on_top_log.
  - intros [= _ <-]. simpl. by apply root_on_top_log.
Qed.

End AcyclicRoot.

(** X16. In an acyclic graph of includes found by the scan, with every
    reachable file opening and fewer than 2^32 levels, the walk records
    the root at depth 0 and every other file at depth 1 or more; so the
    root is the last file of the emission order, and its text comes
    after the text of every file it includes. *)
Theorem acyclic_root_emitted_last fs srt (root : string) (rank : string → nat)
    fuel :
  (∀ f g, reachable fs root f → g ∈ includes_of fs f → rank g < rank f) →
  (∀ f, reachable fs root f → is_Some (read_file fs f)) →
  (N.of_nat (rank root) < 4294967296)%N →
  rank root < fuel →
  ∃ st, findIncludes fs fuel root (parent_path fs root) initial_state 0
        = Some (true, st)
        ∧ activeIncludes st !! root = Some 0%N
        ∧ (∀ (g : string) x, g ≠ root → activeIncludes st !! g = Some x →
                             (1 ≤ x)%N)
        ∧ last (convertActiveIncludesToVector srt (activeIncludes st))
          = Some root.
Proof.
  intros Hrank Hopen Hfits Hfuel.
  destruct (acyclic_walk fs root rank Hrank Hopen fuel Hfuel)
    as (st & Hwalk & Hdom).
  exists st. split; [assumption|].
  assert (root_on_top root (trace st)) as Htop.
  { eapply (findIncludes_root_on_top fs root rank Hrank Hfits);
      [| |exact Hwalk].
    - split; [apply reachable_root|]. split; [lia|by left].
    - intros g x Hin. by apply elem_of_nil in Hin. }
  destruct (walk_keeps_depth_invariant _ _ _ _ _ _ _ Hwalk) as [Hinv _].
  specialize (Hinv depth_invariant_initial).
  assert (∀ (g : string) x, activeIncludes st !! g = Some x →
            (g = root ∧ x = 0%N) ∨ (g ≠ root ∧ (1 ≤ x)%N)) as Hdepth.
  { intros g x Hg. specialize (Hinv g). rewrite Hg in Hinv.
    destruct Hinv as [Hin _]. by apply Htop. }
  assert (activeIncludes st !! root = Some 0%N) as Hroot.
  { destruct (proj1 (Hdom root) (reachable_root fs root)) as [x Hx].
    destruct (Hdepth root x Hx) as [[_ ->]|[? _]]; done. }
  split; [assumption|]. split.
  { intros g x Hne Hg. destruct (Hdepth g x Hg) as [[? _]|[_ ?]]; done. }
  set (out := convertActiveIncludesToVector srt (activeIncludes st)).
  assert (root ∈ out) as Hin by (apply convert_elem_of; by eexists).
  apply list_elem_of_lookup in Hin as [i Hi].
  destruct (last out) as [g|] eqn:Hlast.
  - apply last_Some in Hlast as [l' Hout].
    assert (out !! length l' = Some g) as Hj.
    { rewrite Hout. by apply list_lookup_middle. }
    destruct (decide (g = root)) as [->|Hne]; [reflexivity|exfalso].
    assert (is_Some (activeIncludes st !! g)) as [x Hx].
    { apply (convert_elem_of srt). by eapply list_elem_of_lookup_2. }
    destruct (Hdepth g x Hx) as [[? _]|[_ Hx1]]; [done|].
    pose proof (convert_index_order srt _ _ _ _ _ _ _ Hj Hi Hx Hroot
                  ltac:(lia)) as Hlt.
    apply lookup_lt_Some in Hi. fold out in Hi. rewrite Hout in Hi.
    rewrite length_app in Hi. simpl in Hi. lia.
  - apply last_None in Hlast. fold out in Hi. rewrite Hlast in Hi.
    by rewrite lookup_nil in Hi.
Qed.

Lemma acyclic_root_emitted_last_witness :
  ∃ st, findIncludes chain_fs 2 "a.wgsl" (parent_path chain_fs "a.wgsl")
          initial_state 0 = Some (true, st)
        ∧ activeIncludes st !! "a.wgsl" = Some 0%N
        ∧ (∀ (g : string) x, g ≠ "a.wgsl" →
             activeIncludes st !! g = Some x → (1 ≤ x)%N)
        ∧ last (convertActiveIncludesToVector merge_std_sort (activeIncludes st))
          = Some "a.wgsl".
Proof.
  apply (acyclic_root_emitted_last chain_fs merge_std_sort "a.wgsl"
           chain_rank 2).
  - apply chain_rank_decreases.
  - apply chain_reachable_opens.
  - unfold chain_rank. simpl. lia.
  - unfold chain_rank. simpl. lia.
Defined.

(** ** Includes inside the window *)

Lemma scan_lines_plain_prefix fs visit (f b : string) d pre rest count st :
  Forall is_plain pre → (count + N.of_nat (length pre) < 5)%N →
  scan_lines fs visit f b d (pre ++ rest) count st
  = scan_lines fs visit f b d rest (count + N.of_nat (length pre))%N st.
Proof.
  intros Hpre. revert count.
  induction Hpre as [|line pre Hline Hpre IH]; intros count Hlen.
  - simpl. by rewrite N.add_0_r.
  - simpl app. simpl length in *.
    rewrite scan_lines_plain by (assumption || lia).
    rewrite IH by lia. f_equal. lia.
Qed.

(** X17. An include is found whenever fewer than five lines without the
    directive prefix have been counted when its line is read: after at
    most four such lines since the top of the file or since the last
    include that was followed, the directive is acted on as if it came
    first. *)
Theorem include_within_window_found fs visit (f b : string) (d : N)
    (pre : list string) (name trailing : string) (rest : list string)
    (count : N) st :
  Forall is_plain pre → (count + N.of_nat (length pre) < 5)%N →
  has_char dquote name = false →
  scan_lines fs visit f b d
    (pre ++ (include_directive_prefix ++ name ++ String dquote trailing) :: rest)
    count st
  = let ps := removeDot fs (path_join fs b name) st in
    match visit ps.1 (parent_path fs ps.1) ps.2 (uint32_succ d) with
    | None => None
    | Some (false, st2) => Some (false, erase f st2)
    | Some (true, st2) => scan_lines fs visit f b d rest 0%N st2
    end.
Proof.
  intros Hpre Hlen Hn.
  rewrite scan_lines_plain_prefix by assumption.
  destruct (directive_line_fields name trailing Hn) as (Hp & Hq & Hs).
  rewrite (scan_lines_directive fs visit f b d _ rest _ st _ Hlen Hp Hq).
  cbv zeta. by rewrite Hs.
Qed.

Lemma include_within_window_found_witness :
  scan_lines chain_fs (findIncludes chain_fs 1) "a.wgsl" "" 0
    (["// one"; "// two"; "// three"; "// four"]
       ++ (include_directive_prefix ++ "b.wgsl" ++ String dquote "") :: [])
    0 initial_state
  = Some (true,
          log (OpenRead "b.wgsl")
            (assign "b.wgsl" 1 (log (Call "b.wgsl" 1) initial_state))).
Proof.
  rewrite (include_within_window_found chain_fs (findIncludes chain_fs 1)
             "a.wgsl" "" 0%N ["// one"; "// two"; "// three"; "// four"]
             "b.wgsl" "" [] 0%N initial_state).
  - reflexivity.
  - repeat constructor.
  - reflexivity.
  - reflexivity.
Defined.

(** X18. When the output file named by the third argument cannot be
    opened, [main] returns 1 after the walk has run: the diagnostics of
    the walk are kept, the error is added to them, no file is opened for
    emission and nothing is written. *)
Theorem unopenable_output_after_walk fs srt fuel (argv : list string)
    (root : string) ok st :
  length argv = 3 → open_write fs (nth 2 argv "") = false →
  canonical fs (root_argument fs argv) = Some root →
  findIncludes fs fuel root (parent_path fs root) initial_state 0
    = Some (ok, st) →
  ∃ r, main fs srt fuel argv = Some r
       ∧ exit_code r = 1%Z
       ∧ output r = ""
       ∧ activeIncludes (final_state r) = activeIncludes st
       ∧ trace (final_state r)
         = Cerr (CouldNotOpenOutput (nth 2 argv ""))
             :: (if ok then trace st
                 else Cerr FindIncludesFailed :: trace st).
Proof.
  intros Hlen Hw Hcan Hwalk. unfold main. fold (root_argument fs argv).
  rewrite Hlen, Hcan, Hwalk, Hw. cbn [Nat.ltb Nat.leb orb Nat.eqb andb negb].
  eexists. split; [reflexivity|]. by destruct ok.
Qed.

Lemma unopenable_output_after_walk_witness :
  ∃ r, main no_output_fs merge_std_sort 3
         ["wgslPreprocessor"; "a.wgsl"; "out.wgsl"] = Some r
       ∧ exit_code r = 1%Z
       ∧ output r = "".
Proof.
  destruct (findIncludes no_output_fs 3 "a.wgsl"
              (parent_path no_output_fs "a.wgsl") initial_state 0)
    as [[ok st]|] eqn:Hw; [|vm_compute in Hw; discriminate].
  destruct (unopenable_output_after_walk no_output_fs merge_std_sort 3
              ["wgslPreprocessor"; "a.wgsl"; "out.wgsl"] "a.wgsl" ok st)
    as (r & Hm & He & Ho & _); [reflexivity..|exact Hw|].
  exists r. by repeat split.
Defined.
